(** * GetOpt: descriptor-driven command-line option parsing

    A shallow embedding of the Go package [getopt] (getopt.go and its
    handler/committer objects) together with the properties its
    specification states about it.

    Conventions of the embedding:
    - a Go [string] is a [string] (a sequence of bytes);
    - a Go [int] is a [Z] in the 64-bit two's complement range, with the
      wrap-around of [++] written out;
    - [map[string]optionHandler] is a [gmap string optionHandler];
    - a destination pointer is a location into a typed store; a write
      through the pointer is an update of the store;
    - a Go function that returns an [error] returns an [option error]
      here ([None] is Go's [nil]); mutated objects are passed and
      returned explicitly. *)

From Stdlib Require Import ZArith Ascii String List Lia.
From Stdlib Require Import Floats.SpecFloat.
From stdpp Require Import base option list gmap strings functions.
From Equations Require Import Equations.

Import ListNotations.
Local Open Scope string_scope.
Local Open Scope list_scope.
Local Open Scope Z_scope.

(** ** Go strings *)

Module GoString.

(** [len(s)] *)
Definition len (s : string) : Z := Z.of_nat (String.length s).

(** [s[n:]] for [0 <= n <= len(s)] (the only way the package uses it). *)
Fixpoint from (n : nat) (s : string) : string :=
  match n, s with
  | O, _ => s
  | S n', String _ s' => from n' s'
  | S _, EmptyString => EmptyString
  end.

(** [s[:n]] for [0 <= n <= len(s)]. *)
Fixpoint upto (n : nat) (s : string) : string :=
  match n, s with
  | O, _ => EmptyString
  | S n', String c s' => String c (upto n' s')
  | S _, EmptyString => EmptyString
  end.

(** [strings.HasPrefix(s, prefix)] *)
Definition HasPrefix (s prefix : string) : bool := String.prefix prefix s.

(** [strings.IndexRune(s, r)] for an ASCII rune [r]: the byte index of
    its first occurrence, or [-1]. *)
Fixpoint IndexRune (s : string) (r : ascii) : Z :=
  match s with
  | EmptyString => -1
  | String c s' =>
      if Ascii.eqb c r then 0
      else let i := IndexRune s' r in
           if i <? 0 then -1 else i + 1
  end.

End GoString.

Import GoString.

(** ** Errors

    The package builds its own errors with [errors.New(message)]; the
    conversion errors come from [strconv] and are [*strconv.NumError]
    values. *)

Inductive numErr := ErrSyntax | ErrRange.

Inductive error :=
| errors_New (msg : string)
| NumError (Func Num : string) (Err : numErr).

(** The error kinds of the specification, by the message the code
    gives them. *)
Definition MalformedDescriptor : error := errors_New "descriptor not understood".
Definition UnsupportedDestinationType : error := errors_New "type not recognized".
Definition TypeMismatch : error := errors_New "descriptor type mismatch".
Definition NameConflict : error := errors_New "option already exists".
Definition UnrecognizedOption (name : string) : error :=
  errors_New ("Arg " +:+ name +:+ " not recognized").
Definition MissingArgument : error := errors_New "missing required argument".
Definition NotAString : error := errors_New "descriptor must be string".
Definition OddArguments : error := errors_New "odd number of arguments".

Definition isConversionError (e : error) : Prop :=
  match e with
  | NumError _ _ _ => True
  | errors_New _ => False
  end.

(** ** strconv.Atoi

    [strconv] is Go's standard library.  [Atoi] accepts an optional sign
    followed by one or more decimal digits, and fails with [ErrSyntax]
    at the first byte that is not a digit (or when there is no digit),
    with [ErrRange] when the magnitude leaves the range of [int]
    (64 bits).  The digits are read left to right, as [ParseUint] does,
    so the first offending byte decides the kind of the error. *)

Module strconv.

Definition intSize : Z := 64.
Definition maxUint64 : Z := 2 ^ 64 - 1.
Definition minInt : Z := - 2 ^ 63.
Definition maxInt : Z := 2 ^ 63 - 1.

Definition digit (c : ascii) : option Z :=
  let n := Z.of_N (N_of_ascii c) in
  if (48 <=? n) && (n <=? 57) then Some (n - 48) else None.

(** The digit loop of [ParseUint(s, 10, 64)] from accumulator [n]. *)
Fixpoint parseDigits (s : string) (n : Z) : Z + numErr :=
  match s with
  | EmptyString => inl n
  | String c s' =>
      match digit c with
      | None => inr ErrSyntax
      | Some d =>
          let n1 := n * 10 + d in
          if maxUint64 <? n1 then inr ErrRange else parseDigits s' n1
      end
  end.

Definition Atoi (s : string) : Z + error :=
  let fail k := inr (NumError "Atoi" s k) in
  let '(neg, body) :=
    match s with
    | String "+" r => (false, r)
    | String "-" r => (true, r)
    | _ => (false, s)
    end in
  match body with
  | EmptyString => fail ErrSyntax
  | _ =>
      match parseDigits body 0 with
      | inr k => fail k
      | inl un =>
          if negb neg && (maxInt <? un) then fail ErrRange
          else if neg && (maxInt + 1 <? un) then fail ErrRange
          else inl (if neg then - un else un)
      end
  end.

End strconv.

(** ** strconv.ParseFloat

    [ParseFloat] and the type [float64] are parameters of the
    development (see the section below): no property of the package
    depends on more than what [ParseFloat] returns on ["0"] and on [""].
    [Binary64] is an instance of the two, used to run the definitions
    and to show that what is assumed of the parameters can be met: the
    binary64 values of [SpecFloat], and the decimal literals
    [[+-]digits[.digits]] that [strconv] converts exactly (a mantissa
    below [2^53] over a power of ten up to [10^22], one correctly
    rounded division).  Literals outside this fragment are reported as
    [ErrSyntax] by the instance; Go accepts more of them. *)

Module Binary64.

Definition float64 : Type := spec_float.

Definition prec : Z := 53.
Definition emax : Z := 1024.

Definition zero : float64 := S754_zero false.

Definition ofZ (neg : bool) (m : Z) : float64 :=
  if m =? 0 then S754_zero neg
  else binary_normalize prec emax (if neg then - m else m) 0 false.

(** Reads digits into the mantissa [m]; [k] counts the digits after
    the point once [frac] is set. *)
Fixpoint mantissa (s : string) (frac : bool) (m : Z) (k : Z)
  : option (Z * Z) :=
  match s with
  | EmptyString => Some (m, k)
  | String c s' =>
      if Ascii.eqb c "." then
        if frac then None
        else match s' with
             | EmptyString => None
             | _ => mantissa s' true m k
             end
      else match strconv.digit c with
           | None => None
           | Some d => mantissa s' frac (m * 10 + d) (if frac then k + 1 else k)
           end
  end.

Definition ParseFloat (s : string) : float64 + error :=
  let fail := inr (NumError "ParseFloat" s ErrSyntax) in
  let '(neg, body) :=
    match s with
    | String "+" r => (false, r)
    | String "-" r => (true, r)
    | _ => (false, s)
    end in
  match body with
  | EmptyString => fail
  | String "." _ => fail
  | _ =>
      match mantissa body false 0 0 with
      | Some (m, k) =>
          if (m <? 2 ^ 53) && (k <=? 22)
          then inl (SFdiv prec emax (ofZ neg m) (ofZ false (10 ^ k)))
          else fail
      | None => fail
      end
  end.

End Binary64.

Section GetOpt.

(** [float64] with its zero value, and [strconv.ParseFloat(s, 64)]. *)
Variable float64 : Type.
Variable float64_zero : float64.
Variable ParseFloat : string -> float64 + error.

(** ** Destinations and the caller's storage

    A destination is a non-nil pointer to a variable of the caller.
    Pointers of different Go types never alias, so the store keeps one
    family of variables per pointee type.  A slice variable is the
    sequence of its elements. *)

Definition loc := nat.

(** The 64-bit wrap-around of [int] arithmetic. *)
Definition wrap (z : Z) : Z := (z + 2 ^ 63) mod 2 ^ 64 - 2 ^ 63.

Record store := Store {
  bools : loc -> bool;
  ints : loc -> Z;
  float64s : loc -> float64;
  strings : loc -> string;
  intSlices : loc -> list Z;
  float64Slices : loc -> list float64;
  stringSlices : loc -> list string
}.

(** The store in which every variable holds the zero value of its type. *)
Definition zeroStore : store :=
  Store (λ _, false) (λ _, 0) (λ _, float64_zero) (λ _, "")
        (λ _, []) (λ _, []) (λ _, []).

(** A value of dynamic type [any] as the package inspects it: a string,
    a pointer of one of the seven supported types, or anything else. *)
Inductive any :=
| AString (s : string)
| PBool (p : loc)
| PInt (p : loc)
| PIntSlice (p : loc)
| PFloat64 (p : loc)
| PFloat64Slice (p : loc)
| PString (p : loc)
| PStringSlice (p : loc)
| AOther.

(** ** Committers: deferred updates *)

Inductive optionCommitter :=
| optionSimpleCommitter_bool (value : bool) (option : loc)
| optionSimpleCommitter_int (value : Z) (option : loc)
| optionSimpleCommitter_float64 (value : float64) (option : loc)
| optionSimpleCommitter_string (value : string) (option : loc)
| optionCountingCommitter (option : loc)
| optionArrayCommitter_int (value : Z) (option : loc)
| optionArrayCommitter_float64 (value : float64) (option : loc)
| optionArrayCommitter_string (value : string) (option : loc).

(** The [commit()] method of each committer. *)
Definition commit (o : optionCommitter) (st : store) : store :=
  let '(Store b i f s ia fa sa) := st in
  match o with
  | optionSimpleCommitter_bool v p => Store (<[p := v]> b) i f s ia fa sa
  | optionSimpleCommitter_int v p => Store b (<[p := v]> i) f s ia fa sa
  | optionSimpleCommitter_float64 v p => Store b i (<[p := v]> f) s ia fa sa
  | optionSimpleCommitter_string v p => Store b i f (<[p := v]> s) ia fa sa
  | optionCountingCommitter p => Store b (<[p := wrap (i p + 1)]> i) f s ia fa sa
  | optionArrayCommitter_int v p => Store b i f s (<[p := ia p ++ [v]]> ia) fa sa
  | optionArrayCommitter_float64 v p => Store b i f s ia (<[p := fa p ++ [v]]> fa) sa
  | optionArrayCommitter_string v p => Store b i f s ia fa (<[p := sa p ++ [v]]> sa)
  end.

(** ** Handlers *)

Inductive optionType := optionNoArg | optionOptionalArg | optionRequiredArg.

#[local] Instance optionType_eq_dec : EqDecision optionType.
Proof. solve_decision. Defined.

Inductive optionHandler :=
| optionSimpleHandler (t : optionType) (value : bool) (option : loc)
| optionCountingHandler (t : optionType) (option : loc)
| optionIntHandler (t : optionType) (option : loc)
| optionIntArrayHandler (t : optionType) (option : loc)
| optionFloatHandler (t : optionType) (option : loc)
| optionFloatArrayHandler (t : optionType) (option : loc)
| optionStringHandler (t : optionType) (option : loc)
| optionStringArrayHandler (t : optionType) (option : loc).

Definition getType (oh : optionHandler) : optionType :=
  match oh with
  | optionSimpleHandler t _ _ | optionCountingHandler t _
  | optionIntHandler t _ | optionIntArrayHandler t _
  | optionFloatHandler t _ | optionFloatArrayHandler t _
  | optionStringHandler t _ | optionStringArrayHandler t _ => t
  end.

(** What a call of the package does: it returns a value, returns an
    error, or panics (an index out of range stops the call; nothing is
    returned). *)
Inductive result (A : Type) :=
| Ok (a : A)
| Err (e : error)
| Panic (msg : string).
Arguments Ok {A} a.
Arguments Err {A} e.
Arguments Panic {A} msg.

(** [args[0]] *)
Definition index0 (args : list string) : result string :=
  match args with
  | a :: _ => Ok a
  | [] => Panic "index out of range [0] with length 0"
  end.

Definition ofConversion {A} (r : A + error) : result A :=
  match r with
  | inl a => Ok a
  | inr e => Err e
  end.

#[local] Instance result_bind : MBind result := λ A B k r,
  match r with
  | Ok a => k a
  | Err e => Err e
  | Panic m => Panic m
  end.

(** [if len(args) < 1 { args = []string{d} }] *)
Definition orDefault (d : string) (args : list string) : list string :=
  if Z.of_nat (length args) <? 1 then [d] else args.

(** The [handle(args)] method of each handler. *)
Definition handle (oh : optionHandler) (args : list string)
  : result optionCommitter :=
  match oh with
  | optionSimpleHandler _ value option =>
      Ok (optionSimpleCommitter_bool value option)
  | optionCountingHandler _ option =>
      Ok (optionCountingCommitter option)
  | optionIntHandler _ option =>
      a ← index0 (orDefault "0" args);
      i ← ofConversion (strconv.Atoi a);
      Ok (optionSimpleCommitter_int i option)
  | optionIntArrayHandler _ option =>
      a ← index0 args;
      i ← ofConversion (strconv.Atoi a);
      Ok (optionArrayCommitter_int i option)
  | optionFloatHandler _ option =>
      a ← index0 (orDefault "0" args);
      f ← ofConversion (ParseFloat a);
      Ok (optionSimpleCommitter_float64 f option)
  | optionFloatArrayHandler _ option =>
      a ← index0 args;
      f ← ofConversion (ParseFloat a);
      Ok (optionArrayCommitter_float64 f option)
  | optionStringHandler _ option =>
      a ← index0 (orDefault "" args);
      Ok (optionSimpleCommitter_string a option)
  | optionStringArrayHandler _ option =>
      a ← index0 args;
      Ok (optionArrayCommitter_string a option)
  end.

(** ** The option collection *)

Record optionCollection := OptionCollection {
  handlers : gmap string optionHandler;
  committers : list optionCommitter
}.

Definition newOptionCollection : optionCollection :=
  OptionCollection ∅ [].

Definition setHandler (oc : optionCollection) (name : string)
    (h : optionHandler) : optionCollection :=
  OptionCollection (<[name := h]> (handlers oc)) (committers oc).

Definition negatedName (name : string) : string := "no" +:+ name.

Definition checkNameConflict (oc : optionCollection) (name : string)
    (negatable : bool) : option error :=
  if bool_decide (is_Some (handlers oc !! name))
  then Some (errors_New "option already exists")
  else if negatable
            && bool_decide (is_Some (handlers oc !! negatedName name))
  then Some (errors_New "option already exists")
  else None.

Definition addSimpleHandler oc name (option : loc) :=
  setHandler oc name (optionSimpleHandler optionNoArg true option).

Definition addNegatableHandler oc name (option : loc) :=
  setHandler
    (setHandler oc name (optionSimpleHandler optionNoArg true option))
    (negatedName name) (optionSimpleHandler optionNoArg false option).

Definition addCountingHandler oc name (option : loc) :=
  setHandler oc name (optionCountingHandler optionNoArg option).

Definition addIntHandler oc name (option : loc) :=
  setHandler oc name (optionIntHandler optionRequiredArg option).

Definition addOptionalIntHandler oc name (option : loc) :=
  setHandler oc name (optionIntHandler optionOptionalArg option).

Definition addIntArrayHandler oc name (option : loc) :=
  setHandler oc name (optionIntArrayHandler optionRequiredArg option).

Definition addFloatHandler oc name (option : loc) :=
  setHandler oc name (optionFloatHandler optionRequiredArg option).

Definition addOptionalFloatHandler oc name (option : loc) :=
  setHandler oc name (optionFloatHandler optionOptionalArg option).

Definition addFloatArrayHandler oc name (option : loc) :=
  setHandler oc name (optionFloatArrayHandler optionRequiredArg option).

Definition addStringHandler oc name (option : loc) :=
  setHandler oc name (optionStringHandler optionRequiredArg option).

Definition addOptionalStringHandler oc name (option : loc) :=
  setHandler oc name (optionStringHandler optionOptionalArg option).

Definition addStringArrayHandler oc name (option : loc) :=
  setHandler oc name (optionStringArrayHandler optionRequiredArg option).

(** [oc.commit()]: every committer, in the order of the slice. *)
Definition commitAll (oc : optionCollection) (st : store) : store :=
  fold_left (fun st e => commit e st) (committers oc) st.

(** ** The descriptor grammar

    [descRe] is the regular expression
    [^([-_a-zA-Z0-9]+)([=:][bifs])?([!+@])?$].  [FindStringSubmatch]
    returns the three groups ([match[1]], [match[2]], [match[3]]; a
    group that takes no part is the empty string), or nothing when the
    descriptor does not match.  None of the bytes that may follow the
    name is a name byte, so the first group is the longest run of name
    bytes and the match, when there is one, is unique. *)

Definition between (lo hi : Z) (c : ascii) : bool :=
  let n := Z.of_N (N_of_ascii c) in (lo <=? n) && (n <=? hi).

(** [[-_a-zA-Z0-9]] *)
Definition nameByte (c : ascii) : bool :=
  Ascii.eqb c "-" || Ascii.eqb c "_"
  || between 97 122 c || between 65 90 c || between 48 57 c.

(** [[=:]] *)
Definition markerByte (c : ascii) : bool :=
  Ascii.eqb c "=" || Ascii.eqb c ":".

(** [[bifs]] *)
Definition typeByte (c : ascii) : bool :=
  Ascii.eqb c "b" || Ascii.eqb c "i" || Ascii.eqb c "f" || Ascii.eqb c "s".

(** [[!+@]] *)
Definition modifierByte (c : ascii) : bool :=
  Ascii.eqb c "!" || Ascii.eqb c "+" || Ascii.eqb c "@".

(** The longest run of name bytes at the head of [s], and what follows. *)
Fixpoint nameRun (s : string) : string * string :=
  match s with
  | String c s' =>
      if nameByte c
      then let '(n, r) := nameRun s' in (String c n, r)
      else (EmptyString, s)
  | EmptyString => (EmptyString, EmptyString)
  end.

Record submatch := Submatch {
  match1 : string;
  match2 : string;
  match3 : string
}.

Definition FindStringSubmatch (desc : string) : option submatch :=
  let '(g1, r1) := nameRun desc in
  if len g1 =? 0 then None
  else
    let '(g2, r2) :=
      match r1 with
      | String m (String t r) =>
          if markerByte m && typeByte t
          then (String m (String t EmptyString), r)
          else (EmptyString, r1)
      | _ => (EmptyString, r1)
      end in
    let '(g3, r3) :=
      match r2 with
      | String c r =>
          if modifierByte c then (String c EmptyString, r)
          else (EmptyString, r2)
      | EmptyString => (EmptyString, r2)
      end in
    match r3 with
    | EmptyString => Some (Submatch g1 g2 g3)
    | String _ _ => None
    end.

(** ** Registration: parseOption *)

(** The attributes [parseOption] reads off the descriptor (its local
    variables [negatable], [counting], [optional], [dArray], [dType]
    and [name]). *)
Record attributes := Attributes {
  negatable : bool;
  counting : bool;
  optional : bool;
  dArray : bool;
  dType : ascii;
  name : string
}.

(** Lines 47-63: from the groups of the match to the attributes. *)
Definition readAttributes (m : submatch) : attributes + error :=
  let modifier :=
    match match3 m with
    | String c _ =>
        if Ascii.eqb c "!" then inl (true, false, false)
        else if Ascii.eqb c "+" then inl (false, true, false)
        else if Ascii.eqb c "@" then inl (false, false, true)
        else inr (errors_New "descriptor not understood")
    | EmptyString => inl (false, false, false)
    end in
  match modifier with
  | inr e => inr e
  | inl (negatable, counting, dArray) =>
      let '(optional, dType) :=
        match match2 m with
        | String m0 (String m1 _) => (Ascii.eqb m0 ":", m1)
        | _ => (false, "?"%char)
        end in
      inl (Attributes negatable counting optional dArray dType (match1 m))
  end.

(** Lines 66-89: the type switch on the destination. *)
Definition probe (ptr : any) : (ascii * bool) + error :=
  match ptr with
  | PBool _ => inl ("b"%char, false)
  | PInt _ => inl ("i"%char, false)
  | PIntSlice _ => inl ("i"%char, true)
  | PFloat64 _ => inl ("f"%char, false)
  | PFloat64Slice _ => inl ("f"%char, true)
  | PString _ => inl ("s"%char, false)
  | PStringSlice _ => inl ("s"%char, true)
  | AString _ | AOther => inr (errors_New "type not recognized")
  end.

(** Lines 91-113: the descriptor against the probed type. *)
Definition reconcile (a : attributes) (pType : ascii) (pArray : bool)
  : option error :=
  let mismatch := Some (errors_New "descriptor type mismatch") in
  if negb (Ascii.eqb (dType a) "?") && negb (Ascii.eqb (dType a) pType)
  then mismatch
  else if counting a && negb (Ascii.eqb pType "i" && negb pArray)
  then mismatch
  else if negatable a && negb (Ascii.eqb pType "b")
  then mismatch
  else if negb (Bool.eqb (dArray a) pArray)
  then mismatch
  else if optional a && pArray
  then mismatch
  else if optional a
            && negb (Ascii.eqb pType "i" || Ascii.eqb pType "s"
                     || Ascii.eqb pType "f")
  then mismatch
  else None.

(** Lines 121-157: the handler for the pointer. *)
Definition register (oc : optionCollection) (a : attributes) (ptr : any)
  : optionCollection * option error :=
  match ptr with
  | PBool f =>
      if negatable a then (addNegatableHandler oc (name a) f, None)
      else (addSimpleHandler oc (name a) f, None)
  | PInt f =>
      if counting a then (addCountingHandler oc (name a) f, None)
      else if optional a then (addOptionalIntHandler oc (name a) f, None)
      else (addIntHandler oc (name a) f, None)
  | PIntSlice f => (addIntArrayHandler oc (name a) f, None)
  | PFloat64 f =>
      if optional a then (addOptionalFloatHandler oc (name a) f, None)
      else (addFloatHandler oc (name a) f, None)
  | PFloat64Slice f => (addFloatArrayHandler oc (name a) f, None)
  | PString f =>
      if optional a then (addOptionalStringHandler oc (name a) f, None)
      else (addStringHandler oc (name a) f, None)
  | PStringSlice f => (addStringArrayHandler oc (name a) f, None)
  | AString _ | AOther => (oc, Some (errors_New "type not recognized"))
  end.

Definition parseOption (oc : optionCollection) (desc : string) (ptr : any)
  : optionCollection * option error :=
  match FindStringSubmatch desc with
  | None => (oc, Some (errors_New "descriptor not understood"))
  | Some m =>
      match readAttributes m with
      | inr e => (oc, Some e)
      | inl a =>
          match probe ptr with
          | inr e => (oc, Some e)
          | inl (pType, pArray) =>
              match reconcile a pType pArray with
              | Some e => (oc, Some e)
              | None =>
                  match checkNameConflict oc (name a) (negatable a) with
                  | Some e => (oc, Some e)
                  | None => register oc a ptr
                  end
              end
          end
      end
  end.

Fixpoint parseOptions (oc : optionCollection) (a : list any)
  : optionCollection * option error :=
  match a with
  | a0 :: a1 :: a' =>
      match a0 with
      | AString desc =>
          match parseOption oc desc a1 with
          | (oc', Some e) => (oc', Some e)
          | (oc', None) => parseOptions oc' a'
          end
      | _ => (oc, Some (errors_New "descriptor must be string"))
      end
  | [_] => (oc, Some (errors_New "odd number of arguments"))
  | [] => (oc, None)
  end.

(** ** Scanning: processArgs *)

(** One turn of the [for len(rest) > 0] loop of [processArgs]: the loop
    ends ([Break], with the value of [rest] at that point), the function
    returns an error ([Return]), a handler panics, or a committer is
    appended and the loop goes on from the new [rest] ([Continue]). *)
Inductive turn :=
| Break (rest : list string)
| Return (err : error)
| Panicked (msg : string)
| Continue (rest : list string) (c : optionCommitter).

(** Lines 232-236: the handler is called with [zeroOrOne]; its committer
    is appended, or its error is returned. *)
Definition invoke (h : optionHandler) (zeroOrOne rest : list string) : turn :=
  match handle h zeroOrOne with
  | Ok c => Continue rest c
  | Err e => Return e
  | Panic m => Panicked m
  end.

Definition scanTurn (hs : gmap string optionHandler) (rest : list string)
  : turn :=
  match rest with
  | [] => Break rest
  | name :: rest1 =>
      if negb (HasPrefix name "--") then Break rest
      else
        let name := from 2 name in
        if len name =? 0 then Break rest1
        else
          let i := IndexRune name "=" in
          let '(zeroOrOne, name) :=
            if -1 <? i
            then ([from (Z.to_nat (i + 1)) name], upto (Z.to_nat i) name)
            else ([], name) in
          match hs !! name with
          | None => Return (errors_New ("Arg " +:+ name +:+ " not recognized"))
          | Some h =>
              if bool_decide (getType h = optionNoArg)
              then invoke h zeroOrOne rest1
              else if 0 <? Z.of_nat (length zeroOrOne)
              then invoke h zeroOrOne rest1
              else
                match rest1 with
                | [] =>
                    if bool_decide (getType h = optionRequiredArg)
                    then Return (errors_New "missing required argument")
                    else invoke h zeroOrOne rest1
                | next :: rest2 =>
                    if bool_decide (getType h = optionOptionalArg)
                       && HasPrefix next "--"
                    then invoke h zeroOrOne rest1
                    else invoke h [next] rest2
                end
          end
  end.

Definition inspect {A} (a : A) : {b : A | a = b} := exist _ a eq_refl.

(** How the loop of [processArgs] ends, with [oc.committers] as the
    loop leaves it. *)
Inductive scanned :=
| Stopped (rest : list string) (cs : list optionCommitter)
| Failed (err : error) (cs : list optionCommitter)
| Crashed (msg : string) (cs : list optionCommitter).

Equations scan (hs : gmap string optionHandler) (rest : list string)
    (cs : list optionCommitter) : scanned by wf (length rest) lt :=
  scan hs rest cs with inspect (scanTurn hs rest) := {
    | exist _ (Break rest') _ => Stopped rest' cs
    | exist _ (Return e) _ => Failed e cs
    | exist _ (Panicked m) _ => Crashed m cs
    | exist _ (Continue rest' c) Hturn => scan hs rest' (cs ++ [c]) }.
Next Obligation.
  unfold scanTurn, invoke in Hturn.
  repeat match type of Hturn with
         | match ?x with _ => _ end = _ => destruct x eqn:?; simpl in *
         | _ => discriminate
         end;
  inversion Hturn; subst; simpl; lia.
Qed.

(** What a call leaves to its caller: the values it returns, or a panic. *)
Inductive outcome :=
| Returns (rest : list string) (err : option error)
| Panics (msg : string).

Definition processArgs (oc : optionCollection) (args : list string)
    (st : store) : outcome * optionCollection * store :=
  match scan (handlers oc) args (committers oc) with
  | Failed e cs =>
      (Returns args (Some e), OptionCollection (handlers oc) cs, st)
  | Crashed m cs =>
      (Panics m, OptionCollection (handlers oc) cs, st)
  | Stopped rest cs =>
      let oc' := OptionCollection (handlers oc) cs in
      (Returns rest None, oc', commitAll oc' st)
  end.

Definition GetOptions (args : list string) (a : list any) (st : store)
  : outcome * store :=
  let oc := newOptionCollection in
  match parseOptions oc a with
  | (_, Some err) => (Returns args (Some err), st)
  | (oc, None) =>
      let '(out, _, st') := processArgs oc args st in (out, st')
  end.

(** ** The command line: GetOSOptions

    [os.Args] is a variable of the program: the function takes its
    value and gives back the value it leaves.  [os.Args[1:]] panics on
    an empty [os.Args], and [os.Args[1]] on one of length one; the
    result is [Ok tt] for a [nil] error. *)
Definition GetOSOptions (osArgs : list string) (a : list any) (st : store)
  : result unit * list string * store :=
  match osArgs with
  | [] => (Panic "slice bounds out of range [1:0]", osArgs, st)
  | _ :: args =>
      match GetOptions args a st with
      | (Panics m, st') => (Panic m, osArgs, st')
      | (Returns _ (Some err), st') => (Err err, osArgs, st')
      | (Returns ret None, st') =>
          match args with
          | [] => (Panic "index out of range [1] with length 1", osArgs, st')
          | arg1 :: _ => (Ok tt, [arg1] ++ ret, st')
          end
      end
  end.

(** * Notions of the statements *)

(** ** Scan positions *)

(** The scan position moves from [rest] to [rest'] in some number of
    turns of the loop, each appending one committer; [new] lists them in
    the order of the turns. *)
Inductive advances (hs : gmap string optionHandler)
  : list string → list optionCommitter → list string → Prop :=
| advances_here rest : advances hs rest [] rest
| advances_turn rest rest1 c new rest' :
    scanTurn hs rest = Continue rest1 c →
    advances hs rest1 new rest' →
    advances hs rest (c :: new) rest'.

(** Where the loop stands when it ends, and what ended it. *)
Definition ends (hs : gmap string optionHandler) (rest1 : list string)
    (cs : list optionCommitter) (out : scanned) : Prop :=
  match out with
  | Stopped r cs' => scanTurn hs rest1 = Break r ∧ cs' = cs
  | Failed e cs' => scanTurn hs rest1 = Return e ∧ cs' = cs
  | Crashed m cs' => scanTurn hs rest1 = Panicked m ∧ cs' = cs
  end.

(** ** Handlers by arity and kind *)

(** The optional-argument handlers of the three kinds that take one,
    each with what its destination holds after the zero value of the
    kind has been stored. *)
Inductive optionalZero : optionHandler → (store → Prop) → Prop :=
| optionalZero_int p :
    optionalZero (optionIntHandler optionOptionalArg p)
      (λ st, ints st p = 0)
| optionalZero_float p :
    optionalZero (optionFloatHandler optionOptionalArg p)
      (λ st, float64s st p = float64_zero)
| optionalZero_string p :
    optionalZero (optionStringHandler optionOptionalArg p)
      (λ st, strings st p = "").

(** The required-argument handlers of the scalar kinds. *)
Inductive requiredScalar : optionHandler → Prop :=
| requiredScalar_int p : requiredScalar (optionIntHandler optionRequiredArg p)
| requiredScalar_float p :
    requiredScalar (optionFloatHandler optionRequiredArg p)
| requiredScalar_string p :
    requiredScalar (optionStringHandler optionRequiredArg p).

(** ** The shapes the grammar admits

    The three groups of the expression, one by one: a name is a
    non-empty run of name bytes, a type is absent or a marker and a
    letter, a modifier is absent or one modifier byte. *)

Fixpoint allBytes (f : ascii → bool) (s : string) : bool :=
  match s with
  | EmptyString => true
  | String c s' => f c && allBytes f s'
  end.

Definition nameText (n : string) : Prop :=
  n ≠ "" ∧ allBytes nameByte n = true.

Inductive typeText : string → Prop :=
| typeText_none : typeText ""
| typeText_some m t :
    markerByte m = true → typeByte t = true →
    typeText (String m (String t "")).

Inductive modifierText : string → Prop :=
| modifierText_none : modifierText ""
| modifierText_some c : modifierByte c = true → modifierText (String c "").

(** At most one of three flags is set. *)
Definition atMostOne (a b c : bool) : bool :=
  negb (a && b) && negb (a && c) && negb (b && c).

(** Whether the first byte of [s] is [c] ([len(s) > 0 && s[0] == c]). *)
Definition firstIs (c : ascii) (s : string) : bool :=
  match s with
  | String c0 _ => Ascii.eqb c0 c
  | EmptyString => false
  end.

(** ** The reconciliation rules, as the specification words them

    The destination shapes of the specification and its rules of
    compatibility, to be compared with the type switch and the chain of
    tests of [parseOption]. *)

Inductive kind := Boolean | Integer | Float | Text.

#[local] Instance kind_eq_dec : EqDecision kind.
Proof. solve_decision. Defined.

Record shape := Shape { element : kind; sequence : bool }.

#[local] Instance shape_eq_dec : EqDecision shape.
Proof. solve_decision. Defined.

(** The seven supported shapes; anything else is not classified. *)
Definition classify (ptr : any) : option shape :=
  match ptr with
  | PBool _ => Some (Shape Boolean false)
  | PInt _ => Some (Shape Integer false)
  | PIntSlice _ => Some (Shape Integer true)
  | PFloat64 _ => Some (Shape Float false)
  | PFloat64Slice _ => Some (Shape Float true)
  | PString _ => Some (Shape Text false)
  | PStringSlice _ => Some (Shape Text true)
  | AString _ | AOther => None
  end.

(** The kind a type letter declares. *)
Definition letterKind (c : ascii) : option kind :=
  if Ascii.eqb c "b" then Some Boolean
  else if Ascii.eqb c "i" then Some Integer
  else if Ascii.eqb c "f" then Some Float
  else if Ascii.eqb c "s" then Some Text
  else None.

(** At least one rule of reconciliation is violated:
    - a declared type letter differs from the element kind;
    - counting without a scalar-integer destination;
    - negatable without a scalar-boolean destination;
    - the declared sequence-ness differs from the destination's;
    - the optional marker with a sequence or a boolean destination. *)
Definition violated (a : attributes) (d : shape) : bool :=
  match letterKind (dType a) with
  | Some k => bool_decide (k ≠ element d)
  | None => false
  end
  || (counting a && bool_decide (d ≠ Shape Integer false))
  || (negatable a && bool_decide (d ≠ Shape Boolean false))
  || bool_decide (dArray a ≠ sequence d)
  || (optional a && (sequence d || bool_decide (element d = Boolean))).

(** ** Sequences of registrations *)

(** A descriptor of the grammar and a destination it is compatible
    with, with the attributes of the descriptor. *)
Definition validPair (desc : string) (ptr : any) (a : attributes) : Prop :=
  ∃ m pType pArray,
    FindStringSubmatch desc = Some m ∧ readAttributes m = inl a
    ∧ probe ptr = inl (pType, pArray) ∧ reconcile a pType pArray = None.

(** [oc2] is [oc1] after any number of further calls of [parseOption],
    successful or not. *)
Inductive registeredLater : optionCollection → optionCollection → Prop :=
| registeredLater_now oc : registeredLater oc oc
| registeredLater_call oc desc ptr oc1 err oc2 :
    parseOption oc desc ptr = (oc1, err) →
    registeredLater oc1 oc2 →
    registeredLater oc oc2.

(** ** What a list of committers does to a destination *)

(** The variable a committer writes. *)
Inductive cell :=
| BoolAt (p : loc)
| IntAt (p : loc)
| Float64At (p : loc)
| StringAt (p : loc)
| IntSliceAt (p : loc)
| Float64SliceAt (p : loc)
| StringSliceAt (p : loc).

Definition target (c : optionCommitter) : cell :=
  match c with
  | optionSimpleCommitter_bool _ p => BoolAt p
  | optionSimpleCommitter_int _ p => IntAt p
  | optionSimpleCommitter_float64 _ p => Float64At p
  | optionSimpleCommitter_string _ p => StringAt p
  | optionCountingCommitter p => IntAt p
  | optionArrayCommitter_int _ p => IntSliceAt p
  | optionArrayCommitter_float64 _ p => Float64SliceAt p
  | optionArrayCommitter_string _ p => StringSliceAt p
  end.

(** The destination of a committer that stores a scalar holds the value
    of the committer. *)
Definition stored (c : optionCommitter) (st : store) : Prop :=
  match c with
  | optionSimpleCommitter_bool v p => bools st p = v
  | optionSimpleCommitter_int v p => ints st p = v
  | optionSimpleCommitter_float64 v p => float64s st p = v
  | optionSimpleCommitter_string v p => strings st p = v
  | _ => True
  end.

(** The values the committers of [cs] append to the slice at [p], in the
    order of [cs]. *)
Definition intsAppended (p : loc) (cs : list optionCommitter) : list Z :=
  omap (λ c, match c with
             | optionArrayCommitter_int v q =>
                 if bool_decide (q = p) then Some v else None
             | _ => None
             end) cs.

Definition float64sAppended (p : loc) (cs : list optionCommitter)
  : list float64 :=
  omap (λ c, match c with
             | optionArrayCommitter_float64 v q =>
                 if bool_decide (q = p) then Some v else None
             | _ => None
             end) cs.

Definition stringsAppended (p : loc) (cs : list optionCommitter)
  : list string :=
  omap (λ c, match c with
             | optionArrayCommitter_string v q =>
                 if bool_decide (q = p) then Some v else None
             | _ => None
             end) cs.

(** ** Registries made by registration *)



(** ** Bytes of a descriptor *)

(** The bytes the descriptor expression can match at all. *)
Definition alphabetByte (c : ascii) : bool :=
  nameByte c || markerByte c || modifierByte c.

(** The last byte of a string. *)
Fixpoint lastByte (s : string) : option ascii :=
  match s with
  | EmptyString => None
  | String c EmptyString => Some c
  | String _ s' => lastByte s'
  end.


(** ** Destinations as variables of the store *)

(** The variable a destination points to. *)
Definition destination (ptr : any) : option cell :=
  match ptr with
  | PBool p => Some (BoolAt p)
  | PInt p => Some (IntAt p)
  | PIntSlice p => Some (IntSliceAt p)
  | PFloat64 p => Some (Float64At p)
  | PFloat64Slice p => Some (Float64SliceAt p)
  | PString p => Some (StringAt p)
  | PStringSlice p => Some (StringSliceAt p)
  | AString _ | AOther => None
  end.

(** The variable the committers of a handler write: its [option]
    field. *)
Definition writes (h : optionHandler) : cell :=
  match h with
  | optionSimpleHandler _ _ p => BoolAt p
  | optionCountingHandler _ p => IntAt p
  | optionIntHandler _ p => IntAt p
  | optionIntArrayHandler _ p => IntSliceAt p
  | optionFloatHandler _ p => Float64At p
  | optionFloatArrayHandler _ p => Float64SliceAt p
  | optionStringHandler _ p => StringAt p
  | optionStringArrayHandler _ p => StringSliceAt p
  end.


(** ** The value of a variable of the store *)




(** * Properties *)

(** What is assumed of [strconv.ParseFloat]: ["0"] is read as the zero
    of [float64], [""] is a syntax error, and every error is a
    [*NumError] for the function and its input. *)
Hypothesis ParseFloat_zero : ParseFloat "0" = inl float64_zero.
Hypothesis ParseFloat_empty :
  ParseFloat "" = inr (NumError "ParseFloat" "" ErrSyntax).
Hypothesis ParseFloat_error :
  ∀ s e, ParseFloat s = inr e → ∃ k, e = NumError "ParseFloat" s k.

(** ** The loop of [processArgs] *)

(** Every turn that goes on consumes at least one token. *)
Lemma scanTurn_shorter hs rest rest' c :
  scanTurn hs rest = Continue rest' c → (length rest' < length rest)%nat.
Proof.
  unfold scanTurn, invoke. intros Hturn.
  repeat match type of Hturn with
         | match ?x with _ => _ end = _ => destruct x eqn:?; simpl in *
         | _ => discriminate
         end;
  inversion Hturn; subst; simpl; lia.
Qed.

(** [scan] is the iteration of [scanTurn]. *)
Lemma scan_turn hs rest cs :
  scan hs rest cs =
  match scanTurn hs rest with
  | Break rest' => Stopped rest' cs
  | Return e => Failed e cs
  | Panicked m => Crashed m cs
  | Continue rest' c => scan hs rest' (cs ++ [c])
  end.
Proof.
  rewrite scan_equation_1.
  assert (Hgen : ∀ t (e : scanTurn hs rest = t),
             scan_unfold_clause_1 hs rest (exist _ t e) cs =
             match t with
             | Break rest' => Stopped rest' cs
             | Return e => Failed e cs
             | Panicked m => Crashed m cs
             | Continue rest' c => scan hs rest' (cs ++ [c])
             end)
    by (intros [] e; reflexivity).
  apply Hgen.
Qed.

(** ** Option tokens *)

Lemma IndexRune_ge s r : -1 <= IndexRune s r.
Proof.
  induction s as [|c s IH]; simpl; [lia|].
  destruct (Ascii.eqb c r); [lia|].
  destruct (Z.ltb_spec (IndexRune s r) 0); lia.
Qed.

Lemma IndexRune_lt s r : IndexRune s r < len s.
Proof.
  unfold len. induction s as [|c s IH]; simpl String.length; simpl IndexRune; [lia|].
  destruct (Ascii.eqb c r); [lia|].
  destruct (Z.ltb_spec (IndexRune s r) 0); lia.
Qed.

(** An inline value: the name has no ['='], so the first ['='] of the
    token is the separator. *)
Lemma IndexRune_inline n x :
  IndexRune n "=" = -1 →
  IndexRune (n +:+ String "=" x) "=" = len n.
Proof.
  unfold len. induction n as [|c n IH]; [reflexivity|].
  change (String c n +:+ String "=" x) with (String c (n +:+ String "=" x)).
  simpl IndexRune. simpl String.length.
  destruct (Ascii.eqb c "="); [discriminate|].
  pose proof (IndexRune_ge n "=").
  destruct (Z.ltb_spec (IndexRune n "=") 0) as [Hlt|Hge]; [|lia].
  intros _. rewrite IH by lia.
  destruct (Z.ltb_spec (Z.of_nat (String.length n)) 0); lia.
Qed.

Lemma from_inline n x :
  from (Z.to_nat (len n + 1)) (n +:+ String "=" x) = x.
Proof.
  unfold len. replace (Z.to_nat (Z.of_nat (String.length n) + 1))
    with (S (String.length n)) by lia.
  induction n as [|c n IH]; simpl; [reflexivity | exact IH].
Qed.

Lemma upto_inline n x :
  upto (Z.to_nat (len n)) (n +:+ String "=" x) = n.
Proof.
  unfold len. rewrite Nat2Z.id.
  induction n as [|c n IH]; simpl; [reflexivity | by rewrite IH].
Qed.

Lemma len_nonempty s : s ≠ "" → (len s =? 0) = false.
Proof.
  destruct s; [congruence|]. intros _. unfold len. simpl String.length.
  apply Z.eqb_neq. lia.
Qed.

Lemma len_append s t : len (s +:+ t) = len s + len t.
Proof.
  unfold len. induction s as [|c s IH]; [change ("" +:+ t) with t; simpl; lia|].
  change (String c s +:+ t) with (String c (s +:+ t)).
  simpl String.length. rewrite !Nat2Z.inj_succ. lia.
Qed.

Lemma len_nonneg s : 0 <= len s.
Proof. unfold len. lia. Qed.

Lemma HasPrefix_dashes s : HasPrefix ("--" +:+ s) "--" = true.
Proof. unfold HasPrefix. by destruct s. Qed.

(** A token of the form [--opt=x]. *)
Lemma scanTurn_inline hs opt x h rest :
  opt ≠ "" → IndexRune opt "=" = -1 → hs !! opt = Some h →
  scanTurn hs (("--" +:+ opt +:+ String "=" x) :: rest)
  = invoke h [x] rest.
Proof.
  intros Hne Heq Hh. unfold scanTurn.
  rewrite HasPrefix_dashes.
  change (from 2 ("--" +:+ opt +:+ String "=" x)) with (opt +:+ String "=" x).
  cbv beta iota zeta. change (negb true) with false. cbv iota.
  rewrite len_nonempty by (destruct opt; [done | discriminate]).
  rewrite IndexRune_inline by done.
  pose proof (len_nonneg opt).
  destruct (Z.ltb_spec (-1) (len opt)); [|lia].
  rewrite from_inline, upto_inline, Hh.
  change (0 <? Z.of_nat (length [x])) with true.
  by destruct (bool_decide (getType h = optionNoArg)).
Qed.

(** A token of the form [--opt]. *)
Lemma scanTurn_separate hs opt h rest :
  opt ≠ "" → IndexRune opt "=" = -1 → hs !! opt = Some h →
  scanTurn hs (("--" +:+ opt) :: rest)
  = if bool_decide (getType h = optionNoArg) then invoke h [] rest
    else match rest with
         | [] =>
             if bool_decide (getType h = optionRequiredArg)
             then Return (errors_New "missing required argument")
             else invoke h [] rest
         | next :: rest2 =>
             if bool_decide (getType h = optionOptionalArg)
                && HasPrefix next "--"
             then invoke h [] rest
             else invoke h [next] rest2
         end.
Proof.
  intros Hne Heq Hh. unfold scanTurn.
  rewrite HasPrefix_dashes.
  change (from 2 ("--" +:+ opt)) with opt.
  cbv beta iota zeta. change (negb true) with false. cbv iota.
  rewrite len_nonempty by done. rewrite Heq.
  change (-1 <? -1) with false. cbv iota. rewrite Hh.
  change (0 <? Z.of_nat (length [])) with false. cbv iota.
  reflexivity.
Qed.

(** The end-of-options marker at the scan position. *)
Lemma scanTurn_marker hs post : scanTurn hs ("--" :: post) = Break post.
Proof. reflexivity. Qed.

(** A token that does not begin with the prefix at the scan position. *)
Lemma scanTurn_plain hs tok rest :
  HasPrefix tok "--" = false → scanTurn hs (tok :: rest) = Break (tok :: rest).
Proof. intros H. unfold scanTurn. by rewrite H. Qed.

(** ** Scan positions *)

Lemma scan_advances hs rest new rest' cs :
  advances hs rest new rest' →
  scan hs rest cs = scan hs rest' (cs ++ new).
Proof.
  intros Hadv. revert cs.
  induction Hadv as [rest|rest rest1 c new rest' Hturn _ IH]; intros cs.
  - by rewrite app_nil_r.
  - rewrite scan_turn, Hturn, IH. by rewrite <- app_assoc.
Qed.

Lemma advances_snoc hs rest new rest1 rest2 c :
  advances hs rest new rest1 →
  scanTurn hs rest1 = Continue rest2 c →
  advances hs rest (new ++ [c]) rest2.
Proof.
  induction 1 as [rest|rest r1 c0 new rest' Hturn _ IH]; intros Hc; simpl.
  - eapply advances_turn; [exact Hc | constructor].
  - eapply advances_turn; [exact Hturn | by apply IH].
Qed.

Lemma scan_ends hs rest cs :
  ∃ new rest1,
    advances hs rest new rest1 ∧ ends hs rest1 (cs ++ new) (scan hs rest cs).
Proof.
  remember (length rest) as n eqn:Hn. revert rest cs Hn.
  induction n as [n IH] using lt_wf_ind. intros rest cs ->.
  rewrite scan_turn.
  destruct (scanTurn hs rest) as [r|e|m|r c] eqn:Hturn.
  - exists [], rest. rewrite app_nil_r. repeat split; [constructor | done].
  - exists [], rest. rewrite app_nil_r. repeat split; [constructor | done].
  - exists [], rest. rewrite app_nil_r. repeat split; [constructor | done].
  - destruct (IH (length r) (scanTurn_shorter _ _ _ _ Hturn) r (cs ++ [c]) eq_refl)
      as (new & rest1 & Hadv & Hend).
    exists (c :: new), rest1. split.
    + by eapply advances_turn.
    + by rewrite <- app_assoc in Hend.
Qed.

(** ** Atomicity of a failed scan *)

(** C1. Atomicity: when [processArgs] returns an error, whatever the
    registry and the token list, it returns the original token list and
    the caller's storage is as it was before the call.  The storage
    changes only through [commitAll], which runs only when the whole
    scan has succeeded; the same holds of [GetOptions], for the errors
    of registration as well. *)
Theorem C1_failed_scan_is_atomic oc args st out oc' st' :
  processArgs oc args st = (out, oc', st') →
  (∀ rest e, out = Returns rest (Some e) → rest = args ∧ st' = st)
  ∧ (st' = st ∨ ∃ rest, out = Returns rest None ∧ st' = commitAll oc' st)
  ∧ (∀ a rest e st'',
       GetOptions args a st = (Returns rest (Some e), st'') →
       rest = args ∧ st'' = st).
Proof.
  intros Hrun. split; [|split].
  - intros rest e ->. unfold processArgs in Hrun.
    destruct (scan (handlers oc) args (committers oc)); by inversion Hrun.
  - unfold processArgs in Hrun.
    destruct (scan (handlers oc) args (committers oc)) as [r cs|e cs|m cs];
      inversion Hrun; subst; eauto.
  - clear. intros a rest e st'' Hget. unfold GetOptions in Hget.
    destruct (parseOptions newOptionCollection a) as [oc1 [e1|]].
    + by inversion Hget.
    + unfold processArgs in Hget.
      destruct (scan (handlers oc1) args (committers oc1));
        by inversion Hget.
Qed.

(** ** What a committer writes *)

Lemma commit_bool v p st :
  bools (commit (optionSimpleCommitter_bool v p) st) p = v.
Proof. destruct st; simpl. apply fn_lookup_insert. Qed.

Lemma commit_int v p st :
  ints (commit (optionSimpleCommitter_int v p) st) p = v.
Proof. destruct st; simpl. apply fn_lookup_insert. Qed.

Lemma commit_float64 v p st :
  float64s (commit (optionSimpleCommitter_float64 v p) st) p = v.
Proof. destruct st; simpl. apply fn_lookup_insert. Qed.

Lemma commit_string v p st :
  strings (commit (optionSimpleCommitter_string v p) st) p = v.
Proof. destruct st; simpl. apply fn_lookup_insert. Qed.


Lemma commitAll_app hs cs new st :
  commitAll (OptionCollection hs (cs ++ new)) st
  = commitAll (OptionCollection hs new) (commitAll (OptionCollection hs cs) st).
Proof. unfold commitAll; simpl. apply fold_left_app. Qed.

(** ** The end-of-options marker *)

(** C7 (as the code has it).  End-of-options marker: whenever the scan
    position reaches a token that is exactly ["--"], scanning stops
    without error; the marker is consumed and the remainder is exactly
    the tokens after it ([post]), whatever they are.  The committers of
    the options before the marker are committed.  In particular
    ["--flag"; "--"; "x"] against a no-argument flag sets the flag and
    leaves ["x"].

    The scan position reaches a token when every token before it has
    been consumed as an option or as the value of one.  This does not
    hold of every ["--"] of a token list: one that follows a
    required-argument option given without an inline value is taken as
    the value of that option, and the scan goes on after it. *)
Theorem C7_end_of_options_marker oc args new post st :
  advances (handlers oc) args new ("--" :: post) →
  (let oc' := OptionCollection (handlers oc) (committers oc ++ new) in
   processArgs oc args st = (Returns post None, oc', commitAll oc' st))
  ∧ (∀ p st0, ∃ st1,
       GetOptions ["--flag"; "--"; "x"] [AString "flag"; PBool p] st0
       = (Returns ["x"] None, st1)
       ∧ bools st1 p = true).
Proof.
  intros Hadv. split.
  - unfold processArgs.
    rewrite (scan_advances _ _ _ _ _ Hadv), scan_turn, scanTurn_marker.
    reflexivity.
  - intros p st0. eexists. split; [reflexivity|]. apply commit_bool.
Qed.

(** ** Optional arguments *)

(** C5. An optional-argument option of integer, float or text kind
    whose token has no inline value, at the end of the tokens or before
    a token that starts with the prefix: the next token is not consumed
    (the scan goes on from [rest]) and the committer stores the zero
    value of the kind.  In particular ["--value"; "--flag"] with
    [value] optional-integer and [flag] a no-argument flag sets [value]
    to [0] and [flag] to [true], and nothing remains. *)
Theorem C5_optional_argument_absent hs opt h zero rest :
  optionalZero h zero →
  hs !! opt = Some h →
  opt ≠ "" → IndexRune opt "=" = -1 →
  match rest with
  | [] => True
  | next :: _ => HasPrefix next "--" = true
  end →
  (∃ c, scanTurn hs (("--" +:+ opt) :: rest) = Continue rest c
        ∧ ∀ st, zero (commit c st))
  ∧ (∀ v f st0, ∃ st1,
       GetOptions ["--value"; "--flag"]
         [AString "value:i"; PInt v; AString "flag"; PBool f] st0
       = (Returns [] None, st1)
       ∧ ints st1 v = 0 ∧ bools st1 f = true).
Proof.
  intros Hh Hlook Hne Heq Hrest. split.
  - rewrite (scanTurn_separate _ _ _ _ Hne Heq Hlook).
    assert (Hty : getType h = optionOptionalArg) by (by destruct Hh).
    rewrite Hty.
    assert (Hsel : (match rest with
                    | [] => invoke h [] rest
                    | next :: rest2 =>
                        if true && HasPrefix next "--"
                        then invoke h [] rest
                        else invoke h [next] rest2
                    end) = invoke h [] rest).
    { destruct rest as [|next rest2]; [done|]. by rewrite Hrest. }
    change (bool_decide (optionOptionalArg = optionNoArg)) with false.
    change (bool_decide (optionOptionalArg = optionRequiredArg)) with false.
    change (bool_decide (optionOptionalArg = optionOptionalArg)) with true.
    cbv iota. rewrite Hsel. unfold invoke.
    destruct Hh; simpl.
    + eexists; split; [reflexivity|]. intros st. apply commit_int.
    + rewrite ParseFloat_zero. simpl.
      eexists; split; [reflexivity|]. intros st. apply commit_float64.
    + eexists; split; [reflexivity|]. intros st. apply commit_string.
  - intros v f st0. eexists. split; [reflexivity|].
    destruct st0; simpl. split; apply fn_lookup_insert.
Qed.

Lemma Atoi_Err s e : strconv.Atoi s = inr e → ∃ k, e = NumError "Atoi" s k.
Proof.
  unfold strconv.Atoi.
  set (sel := match s with
      | String "+" r => (false, r)
      | String "-" r => (true, r)
      | _ => (false, s)
      end).
  destruct sel as [neg body].
  destruct body as [|c body']; [intros H; inversion H; eauto|].
  destruct (strconv.parseDigits (String c body') 0) as [un|k];
    [|intros H; inversion H; eauto].
  destruct (negb neg && (strconv.maxInt <? un)); [intros H; inversion H; eauto|].
  destruct (neg && (strconv.maxInt + 1 <? un)); intros H; inversion H; eauto.
Qed.

(** ** Handlers *)

(** A handler fails only with the error of a conversion. *)
Lemma handle_Err h args e :
  handle h args = Err e → isConversionError e.
Proof.
  assert (Hint : ∀ a e', ofConversion (strconv.Atoi a) = Err e'
                         → isConversionError e').
  { intros a e'. destruct (strconv.Atoi a) as [z|e0] eqn:Ha; [discriminate|].
    destruct (Atoi_Err _ _ Ha) as [k ->]. intros H; inversion H; exact I. }
  assert (Hfloat : ∀ a e', ofConversion (ParseFloat a) = Err e'
                           → isConversionError e').
  { intros a e'. destruct (ParseFloat a) as [z|e0] eqn:Ha; [discriminate|].
    destruct (ParseFloat_error _ _ Ha) as [k ->].
    intros H; inversion H; exact I. }
  destruct h as [t v p|t p|t p|t p|t p|t p|t p|t p]; simpl; try discriminate.
  - destruct (orDefault "0" args) as [|a l]; simpl; try discriminate.
    destruct (ofConversion (strconv.Atoi a)) eqn:Hc; simpl; try discriminate.
    intros H; inversion H; subst. exact (Hint _ _ Hc).
  - destruct args as [|a l]; simpl; try discriminate.
    destruct (ofConversion (strconv.Atoi a)) eqn:Hc; simpl; try discriminate.
    intros H; inversion H; subst. exact (Hint _ _ Hc).
  - destruct (orDefault "0" args) as [|a l]; simpl; try discriminate.
    destruct (ofConversion (ParseFloat a)) eqn:Hc; simpl; try discriminate.
    intros H; inversion H; subst. exact (Hfloat _ _ Hc).
  - destruct args as [|a l]; simpl; try discriminate.
    destruct (ofConversion (ParseFloat a)) eqn:Hc; simpl; try discriminate.
    intros H; inversion H; subst. exact (Hfloat _ _ Hc).
  - destruct (orDefault "" args) as [|a l]; simpl; discriminate.
  - destruct args as [|a l]; simpl; discriminate.
Qed.

(** A handler that is given a value does not panic. *)
Lemma handle_value h x m : handle h [x] ≠ Panic m.
Proof.
  destruct h; simpl; try discriminate.
  - destruct (strconv.Atoi x); discriminate.
  - destruct (strconv.Atoi x); discriminate.
  - destruct (ParseFloat x); discriminate.
  - destruct (ParseFloat x); discriminate.
Qed.

(** ** Inline and separate values *)

(** A scan of the single token [--opt=x]. *)
Lemma scan_inline hs opt x h cs :
  opt ≠ "" → IndexRune opt "=" = -1 → hs !! opt = Some h →
  scan hs ["--" +:+ opt +:+ String "=" x] cs
  = match handle h [x] with
    | Ok c => Stopped [] (cs ++ [c])
    | Err e => Failed e cs
    | Panic m => Crashed m cs
    end.
Proof.
  intros Hne Heq Hh.
  rewrite scan_turn, (scanTurn_inline _ _ _ _ _ Hne Heq Hh). unfold invoke.
  by destruct (handle h [x]).
Qed.

(** A scan of the two tokens [--opt], [x] for a required argument. *)
Lemma scan_separate hs opt x h cs :
  opt ≠ "" → IndexRune opt "=" = -1 → hs !! opt = Some h →
  getType h = optionRequiredArg →
  scan hs ["--" +:+ opt; x] cs
  = match handle h [x] with
    | Ok c => Stopped [] (cs ++ [c])
    | Err e => Failed e cs
    | Panic m => Crashed m cs
    end.
Proof.
  intros Hne Heq Hh Hty.
  rewrite scan_turn, (scanTurn_separate _ _ _ _ Hne Heq Hh), Hty.
  change (bool_decide (optionRequiredArg = optionNoArg)) with false.
  change (bool_decide (optionRequiredArg = optionOptionalArg)) with false.
  cbv iota. change (false && HasPrefix x "--") with false. cbv iota.
  unfold invoke.
  by destruct (handle h [x]).
Qed.

(** C8 (as the code has it).  Inline and separate forms: for a
    registered required-argument option of integer, float or text kind
    and a value token [x], the scan of [--opt=x] and the scan of
    [--opt], [x] hand the same value to the handler.  When it converts
    (always, for text), both commit the same update, leave the same
    collection and storage and an empty remainder; when it does not,
    both return the same error and change nothing, and each returns its
    own token list.  For a text option both store [x].  (No condition
    on [x] is needed: a required argument is taken whatever it looks
    like.) *)
Theorem C8_inline_and_separate_agree oc opt h x st :
  requiredScalar h →
  handlers oc !! opt = Some h →
  opt ≠ "" → IndexRune opt "=" = -1 →
  let inline := ["--" +:+ opt +:+ String "=" x] in
  let separate := ["--" +:+ opt; x] in
  match handle h [x] with
  | Ok c =>
      let oc' := OptionCollection (handlers oc) (committers oc ++ [c]) in
      processArgs oc inline st = (Returns [] None, oc', commitAll oc' st)
      ∧ processArgs oc separate st = (Returns [] None, oc', commitAll oc' st)
      ∧ ∀ p, h = optionStringHandler optionRequiredArg p →
             strings (commitAll oc' st) p = x
  | Err e =>
      processArgs oc inline st = (Returns inline (Some e), oc, st)
      ∧ processArgs oc separate st = (Returns separate (Some e), oc, st)
  | Panic _ => False
  end.
Proof.
  intros Hh Hlook Hne Heq inline separate.
  assert (Hty : getType h = optionRequiredArg) by (by destruct Hh).
  unfold processArgs, inline, separate.
  rewrite (scan_inline _ _ x _ _ Hne Heq Hlook).
  rewrite (scan_separate _ _ x _ _ Hne Heq Hlook Hty).
  destruct (handle h [x]) as [c|e|m] eqn:Hc.
  - repeat split. intros p ->. simpl in Hc. inversion Hc; subst.
    rewrite commitAll_app. unfold commitAll at 1; simpl.
    apply commit_string.
  - by destruct oc.
  - by apply handle_value in Hc.
Qed.

(** ** Missing arguments *)

(** The loop returns "missing required argument" only at a last token
    that carries no inline value. *)
Lemma scanTurn_missing hs rest :
  scanTurn hs rest = Return MissingArgument →
  ∃ tok, rest = [tok] ∧ HasPrefix tok "--" = true
         ∧ IndexRune (from 2 tok) "=" = -1.
Proof.
  assert (Hinv : ∀ h a r, invoke h a r ≠ Return MissingArgument).
  { intros h a r. unfold invoke.
    destruct (handle h a) as [c|e|m] eqn:Hh; try discriminate.
    apply handle_Err in Hh. intros H; inversion H; subst. exact Hh. }
  unfold scanTurn. destruct rest as [|tok rest1]; [discriminate|].
  destruct (HasPrefix tok "--") eqn:Hpre; simpl negb; cbv iota;
    [|discriminate].
  destruct (len (from 2 tok) =? 0); [discriminate|].
  pose proof (IndexRune_ge (from 2 tok) "=") as Hge.
  destruct (Z.ltb_spec (-1) (IndexRune (from 2 tok) "=")) as [Hlt|Hle].
  - destruct (hs !! upto _ _) as [h|]; [|discriminate].
    change (0 <? Z.of_nat (length [from (Z.to_nat (IndexRune (from 2 tok) "=" + 1)) (from 2 tok)]))
      with true.
    destruct (bool_decide (getType h = optionNoArg)); intros H;
      by apply Hinv in H.
  - destruct (hs !! from 2 tok) as [h|]; [|discriminate].
    change (0 <? Z.of_nat (length (@nil string))) with false. cbv iota.
    destruct (bool_decide (getType h = optionNoArg));
      [intros H; by apply Hinv in H|].
    destruct rest1 as [|next rest2].
    + intros _. exists tok. repeat split; [done | lia].
    + destruct (bool_decide (getType h = optionOptionalArg)
                && HasPrefix next "--"); intros H; by apply Hinv in H.
Qed.

(** C9. An empty inline value is a value.  For a required-text option
    the token [--name=] is scanned without error and stores the empty
    string; for a required-integer or required-float option it aborts
    the scan with the error of the conversion, never with "missing
    required argument", and nothing changes.  "Missing required
    argument" is returned only when the scan position is at the last
    token and that token carries no inline value. *)
Theorem C9_empty_inline_value oc opt p st :
  opt ≠ "" → IndexRune opt "=" = -1 →
  let tok := "--" +:+ opt +:+ "=" in
  (handlers oc !! opt = Some (optionStringHandler optionRequiredArg p) →
   ∃ oc' st', processArgs oc [tok] st = (Returns [] None, oc', st')
              ∧ strings st' p = "")
  ∧ (handlers oc !! opt = Some (optionIntHandler optionRequiredArg p)
     ∨ handlers oc !! opt = Some (optionFloatHandler optionRequiredArg p) →
     ∃ e, processArgs oc [tok] st = (Returns [tok] (Some e), oc, st)
          ∧ isConversionError e ∧ e ≠ MissingArgument)
  ∧ (∀ args rest e oc' st',
       processArgs oc args st = (Returns rest (Some e), oc', st') →
       e = MissingArgument →
       ∃ new last,
         advances (handlers oc) args new [last]
         ∧ HasPrefix last "--" = true
         ∧ IndexRune (from 2 last) "=" = -1).
Proof.
  intros Hne Heq tok. split; [|split].
  - intros Hlook. unfold processArgs, tok.
    rewrite (scan_inline _ _ "" _ _ Hne Heq Hlook). simpl.
    do 2 eexists. split; [reflexivity|].
    rewrite commitAll_app. unfold commitAll at 1; simpl.
    apply commit_string.
  - intros [Hlook|Hlook]; unfold processArgs, tok;
      rewrite (scan_inline _ _ "" _ _ Hne Heq Hlook); simpl.
    + eexists. split; [by destruct oc|]. split; [exact I | discriminate].
    + rewrite ParseFloat_empty. simpl.
      eexists. split; [by destruct oc|]. split; [exact I | discriminate].
  - intros args rest e oc' st' Hrun ->. unfold processArgs in Hrun.
    destruct (scan_ends (handlers oc) args (committers oc))
      as (new & rest1 & Hadv & Hend).
    destruct (scan (handlers oc) args (committers oc)) as [r cs|e cs|m cs];
      inversion Hrun; subst.
    destruct Hend as [Hturn _].
    destruct (scanTurn_missing _ _ Hturn) as (last & -> & Hpre & Hidx).
    eauto.
Qed.

(** ** Registration of a list of pairs *)

(** Induction over a list two elements at a time, as [parseOptions]
    reads it. *)
Lemma pairs_ind {A} (P : list A → Prop) :
  P [] → (∀ a, P [a]) → (∀ a b l, P l → P (a :: b :: l)) → ∀ l, P l.
Proof.
  intros Hnil Hone Hstep l.
  assert (H : P l ∧ ∀ a, P (a :: l)).
  { induction l as [|b l [IH1 IH2]]; [by split|].
    split; [apply IH2|]. intros a. by apply Hstep. }
  apply H.
Qed.

(** A list of pairs that registers, followed by one more element. *)
Lemma parseOptions_dangling a x oc oc' :
  parseOptions oc a = (oc', None) →
  parseOptions oc (a ++ [x])
  = (oc', Some (errors_New "odd number of arguments")).
Proof.
  revert oc. induction a as [|a0|a0 a1 a IH] using pairs_ind; intros oc.
  - simpl. by intros [= ->].
  - simpl. discriminate.
  - simpl. destruct a0; try discriminate.
    destruct (parseOption oc s a1) as [oc1 [e|]]; [discriminate|].
    apply IH.
Qed.

(** C10. A descriptor/destination list of odd length whose complete
    pairs all register: [GetOptions] returns the error "odd number of
    arguments" with the original token list and leaves the storage as
    it was, whatever the dangling last element is. *)
Theorem C10_odd_argument_list args a x st oc' :
  parseOptions newOptionCollection a = (oc', None) →
  GetOptions args (a ++ [x]) st = (Returns args (Some OddArguments), st).
Proof.
  intros Hreg. unfold GetOptions.
  by rewrite (parseOptions_dangling _ x _ _ Hreg).
Qed.

(** ** The descriptor grammar *)

Lemma markerByte_not_name c : markerByte c = true → nameByte c = false.
Proof.
  unfold markerByte. intros H. apply orb_true_iff in H.
  destruct H as [H|H]; apply Ascii.eqb_eq in H; by subst.
Qed.

Lemma modifierByte_not_name c : modifierByte c = true → nameByte c = false.
Proof.
  unfold modifierByte. intros H. rewrite !orb_true_iff in H.
  destruct H as [[H|H]|H]; apply Ascii.eqb_eq in H; by subst.
Qed.

Lemma modifierByte_not_marker c : modifierByte c = true → markerByte c = false.
Proof.
  unfold modifierByte. intros H. rewrite !orb_true_iff in H.
  destruct H as [[H|H]|H]; apply Ascii.eqb_eq in H; by subst.
Qed.

Lemma nameRun_app n r :
  allBytes nameByte n = true →
  match r with String c _ => nameByte c = false | EmptyString => True end →
  nameRun (n +:+ r) = (n, r).
Proof.
  intros Hn Hr. induction n as [|c n IH].
  - change ("" +:+ r) with r. destruct r as [|c r]; [done|].
    simpl. by rewrite Hr.
  - change (String c n +:+ r) with (String c (n +:+ r)). simpl in *.
    apply andb_true_iff in Hn as [Hc Hn]. by rewrite Hc, (IH Hn).
Qed.

Lemma nameRun_spec s n r :
  nameRun s = (n, r) →
  s = n +:+ r ∧ allBytes nameByte n = true
  ∧ match r with String c _ => nameByte c = false | EmptyString => True end.
Proof.
  revert n r. induction s as [|c s IH]; intros n r; simpl.
  - by intros [= <- <-].
  - destruct (nameByte c) eqn:Hc.
    + destruct (nameRun s) as [n' r'] eqn:Hrun. intros [= <- <-].
      destruct (IH _ _ eq_refl) as (-> & Hn & Hr).
      repeat split; [|done]. simpl. by rewrite Hc.
    + intros [= <- <-]. by repeat split.
Qed.

(** Every combination of a name, a type and a modifier is a descriptor
    of the grammar, with these groups. *)
Lemma FindStringSubmatch_complete n ty md :
  nameText n → typeText ty → modifierText md →
  FindStringSubmatch (n +:+ ty +:+ md) = Some (Submatch n ty md).
Proof.
  intros [Hne Hn] Hty Hmd. unfold FindStringSubmatch.
  rewrite nameRun_app; [|done|].
  - rewrite len_nonempty by done.
    destruct Hty as [|m t Hm Ht], Hmd as [|c Hc]; try reflexivity.
    + change ("" +:+ String c "") with (String c "").
      cbv beta iota zeta. by rewrite Hc.
    + change (String m (String t "") +:+ "") with (String m (String t "")).
      cbv beta iota zeta. by rewrite Hm, Ht.
    + change (String m (String t "") +:+ String c "")
        with (String m (String t (String c ""))).
      cbv beta iota zeta. rewrite Hm, Ht. cbn [andb].
      cbv beta iota zeta. by rewrite Hc.
  - destruct Hty as [|m t Hm Ht], Hmd as [|c Hc]; try done.
    + by apply modifierByte_not_name.
    + by apply markerByte_not_name.
    + by apply markerByte_not_name.
Qed.

(** Every descriptor of the grammar is such a combination. *)
Lemma FindStringSubmatch_sound desc n ty md :
  FindStringSubmatch desc = Some (Submatch n ty md) →
  desc = n +:+ ty +:+ md ∧ nameText n ∧ typeText ty ∧ modifierText md.
Proof.
  unfold FindStringSubmatch.
  destruct (nameRun desc) as [g1 r1] eqn:Hrun.
  destruct (nameRun_spec _ _ _ Hrun) as (-> & Hn & _).
  destruct (len g1 =? 0) eqn:Hlen; [discriminate|].
  assert (Hne : g1 ≠ "") by (intros ->; discriminate).
  assert (Hmod : ∀ g2 r2,
    match (match r2 with
           | String c r =>
               if modifierByte c then (String c "", r) else ("", r2)
           | EmptyString => ("", r2)
           end) with
    | (g3, r3) =>
        match r3 with
        | EmptyString => Some (Submatch g1 g2 g3)
        | String _ _ => None
        end
    end = Some (Submatch n ty md) →
    g1 = n ∧ g2 = ty ∧ r2 = md ∧ modifierText md).
  { intros g2 r2. destruct r2 as [|c r]; [intros [= <- <- <-]; repeat split; constructor|].
    destruct (modifierByte c) eqn:Hc; [|discriminate].
    destruct r; [|discriminate]. intros [= <- <- <-].
    repeat split. by constructor. }
  destruct r1 as [|m [|t r]].
  - intros H. apply (Hmod "" "") in H as (<- & <- & <- & Hmd).
    repeat split; (done || constructor).
  - intros H. apply (Hmod "" (String m "")) in H as (<- & <- & <- & Hmd).
    repeat split; (done || constructor).
  - destruct (markerByte m && typeByte t) eqn:Hmt.
    + apply andb_true_iff in Hmt as [Hm Ht].
      intros H.
      apply (Hmod (String m (String t "")) r) in H as (<- & <- & <- & Hmd).
      repeat split; (done || by constructor).
    + intros H.
      apply (Hmod "" (String m (String t r))) in H as (<- & <- & <- & Hmd).
      repeat split; (done || constructor).
Qed.

(** The attributes read off a descriptor of the grammar: the modifier
    byte decides [negatable], [counting] and [dArray]; the marker of
    the type decides [optional]. *)
Lemma readAttributes_spec n ty md :
  typeText ty → modifierText md →
  ∃ a, readAttributes (Submatch n ty md) = inl a
       ∧ name a = n
       ∧ negatable a = firstIs "!" md
       ∧ counting a = firstIs "+" md
       ∧ dArray a = firstIs "@" md
       ∧ optional a = match ty with
                      | String m _ => Ascii.eqb m ":"
                      | EmptyString => false
                      end
       ∧ dType a = match ty with
                   | String _ (String t _) => t
                   | _ => "?"%char
                   end.
Proof.
  intros Hty Hmd. unfold readAttributes. simpl match3. simpl match2.
  destruct Hmd as [|c Hc].
  - destruct Hty; eexists; repeat split.
  - unfold modifierByte in Hc. rewrite !orb_true_iff in Hc.
    destruct Hc as [[Hc|Hc]|Hc]; apply Ascii.eqb_eq in Hc; subst c;
      destruct Hty; eexists; repeat split.
Qed.

Lemma parseOption_not_malformed oc desc ptr m a :
  FindStringSubmatch desc = Some m → readAttributes m = inl a →
  snd (parseOption oc desc ptr) ≠ Some MalformedDescriptor.
Proof.
  intros Hm Ha. unfold parseOption. rewrite Hm, Ha.
  destruct (probe ptr) as [[pType pArray]|e] eqn:Hp.
  - unfold reconcile.
    repeat match goal with
           | |- context [if ?b then _ else _] => destruct b
           end; try discriminate.
    unfold checkNameConflict.
    repeat match goal with
           | |- context [if ?b then _ else _] => destruct b
           end; try discriminate.
    destruct ptr; simpl in Hp; try discriminate; simpl;
      repeat match goal with
             | |- context [if ?b then _ else _] => destruct b
             end; discriminate.
  - destruct ptr; simpl in Hp; inversion Hp; discriminate.
Qed.

(** C2 (as the code has it).  A descriptor that combines a type marker
    with a modifier byte is a descriptor of the grammar: the expression
    matches it, its attributes are read, and registration never rejects
    it as "descriptor not understood"; whether it registers is decided
    by the type reconciliation and the name check (["flag=b!"] with a
    boolean destination registers a negatable flag).  The one modifier
    byte sets at most one of negatable, counting and sequence; optional
    comes from the [:] marker of the type and may accompany any of
    them.  The same bound holds of every descriptor that matches. *)
Theorem C2_type_marker_with_modifier n m t c oc ptr :
  nameText n →
  markerByte m = true → typeByte t = true → modifierByte c = true →
  let ty := String m (String t "") in
  let md := String c "" in
  let desc := n +:+ ty +:+ md in
  (∃ a, FindStringSubmatch desc = Some (Submatch n ty md)
        ∧ readAttributes (Submatch n ty md) = inl a
        ∧ name a = n ∧ dType a = t
        ∧ optional a = Ascii.eqb m ":"
        ∧ negatable a = Ascii.eqb c "!"
        ∧ counting a = Ascii.eqb c "+"
        ∧ dArray a = Ascii.eqb c "@"
        ∧ snd (parseOption oc desc ptr) ≠ Some MalformedDescriptor)
  ∧ (∀ desc' m',
       FindStringSubmatch desc' = Some m' →
       ∃ a', readAttributes m' = inl a'
             ∧ atMostOne (negatable a') (counting a') (dArray a') = true)
  ∧ (∀ p, parseOption newOptionCollection "flag=b!" (PBool p)
          = (addNegatableHandler newOptionCollection "flag" p, None)).
Proof.
  intros Hn Hm Ht Hc ty md desc.
  assert (Hty : typeText ty) by (by constructor).
  assert (Hmd : modifierText md) by (by constructor).
  pose proof (FindStringSubmatch_complete n ty md Hn Hty Hmd) as Hmatch.
  split; [|split].
  - destruct (readAttributes_spec n ty md Hty Hmd)
      as (a & Ha & Hname & Hneg & Hcnt & Harr & Hopt & Hdt).
    exists a. repeat split; try done.
    by apply (parseOption_not_malformed oc desc ptr (Submatch n ty md) a).
  - intros desc' [g1 g2 g3] Hm'.
    apply FindStringSubmatch_sound in Hm' as (_ & _ & Hty' & Hmd').
    destruct (readAttributes_spec g1 g2 g3 Hty' Hmd')
      as (a & Ha & _ & Hneg & Hcnt & Harr & _).
    exists a. split; [done|]. rewrite Hneg, Hcnt, Harr.
    destruct Hmd' as [|c' Hc']; [reflexivity|].
    unfold modifierByte in Hc'. rewrite !orb_true_iff in Hc'.
    destruct Hc' as [[Hc'|Hc']|Hc']; apply Ascii.eqb_eq in Hc'; by subst c'.
  - intros p. reflexivity.
Qed.

(** ** Type reconciliation *)

Lemma typeByte_cases t :
  typeByte t = true →
  t = "b"%char ∨ t = "i"%char ∨ t = "f"%char ∨ t = "s"%char.
Proof.
  unfold typeByte. rewrite !orb_true_iff, !Ascii.eqb_eq. tauto.
Qed.

(** The type letter of a descriptor of the grammar. *)
Lemma dType_range desc m a :
  FindStringSubmatch desc = Some m → readAttributes m = inl a →
  dType a = "?"%char ∨ typeByte (dType a) = true.
Proof.
  destruct m as [g1 g2 g3]. intros Hm Ha.
  apply FindStringSubmatch_sound in Hm as (_ & _ & Hty & Hmd).
  destruct (readAttributes_spec g1 g2 g3 Hty Hmd)
    as (a' & Ha' & _ & _ & _ & _ & _ & Hdt).
  rewrite Ha in Ha'. inversion Ha'; subst a'. rewrite Hdt.
  destruct Hty; [by left | by right].
Qed.

(** The chain of tests of [parseOption] enforces exactly the rules. *)
Lemma reconcile_violated a ptr d pType pArray :
  dType a = "?"%char ∨ typeByte (dType a) = true →
  probe ptr = inl (pType, pArray) → classify ptr = Some d →
  reconcile a pType pArray
  = if violated a d then Some TypeMismatch else None.
Proof.
  intros Hdt Hp Hd.
  destruct a as [neg cnt opt arr dt nm]. simpl in Hdt.
  assert (Hdt' : dt = "?"%char ∨ dt = "b"%char ∨ dt = "i"%char
                 ∨ dt = "f"%char ∨ dt = "s"%char).
  { destruct Hdt as [?|Ht]; [by left | right; by apply typeByte_cases]. }
  destruct ptr; simpl in Hp, Hd; inversion Hp; inversion Hd; subst;
    destruct Hdt' as [->|[->|[->|[->| ->]]]];
    by destruct neg, cnt, opt, arr.
Qed.

Lemma probe_classify ptr :
  match classify ptr with
  | Some d => ∃ pType pArray, probe ptr = inl (pType, pArray)
  | None => probe ptr = inr UnsupportedDestinationType
  end.
Proof. destruct ptr; simpl; eauto. Qed.

(** Registration after a successful reconciliation fails only with
    "option already exists". *)
Lemma register_outcome oc a ptr pType pArray :
  probe ptr = inl (pType, pArray) →
  snd (register oc a ptr) = None.
Proof.
  destruct ptr; simpl; try discriminate; intros _;
    repeat match goal with
           | |- context [if ?b then _ else _] => destruct b
           end; reflexivity.
Qed.

(** C3. Type reconciliation: for a descriptor of the grammar and any
    destination, registration fails with "type not recognized" when
    the destination is none of the seven supported shapes, and
    otherwise fails with "descriptor type mismatch" exactly when at
    least one rule of reconciliation is violated (and then registers
    nothing). *)
Theorem C3_type_reconciliation desc m a ptr oc :
  FindStringSubmatch desc = Some m → readAttributes m = inl a →
  match classify ptr with
  | None => parseOption oc desc ptr = (oc, Some UnsupportedDestinationType)
  | Some d =>
      (snd (parseOption oc desc ptr) = Some TypeMismatch
       ↔ violated a d = true)
      ∧ (violated a d = true
         → parseOption oc desc ptr = (oc, Some TypeMismatch))
  end.
Proof.
  intros Hm Ha. pose proof (dType_range _ _ _ Hm Ha) as Hdt.
  pose proof (probe_classify ptr) as Hp.
  unfold parseOption. rewrite Hm, Ha.
  destruct (classify ptr) as [d|] eqn:Hd.
  - destruct Hp as (pType & pArray & Hp). rewrite Hp.
    rewrite (reconcile_violated a ptr d _ _ Hdt Hp Hd).
    destruct (violated a d).
    + by split.
    + split; [|discriminate]. split; [|discriminate].
      unfold checkNameConflict.
      repeat match goal with
             | |- context [if ?b then _ else _] => destruct b
             end; try discriminate.
      by rewrite (register_outcome _ _ _ _ _ Hp).
  - by rewrite Hp.
Qed.

(** ** Name conflicts *)

Lemma setHandler_keeps oc n h k :
  is_Some (handlers oc !! k) → is_Some (handlers (setHandler oc n h) !! k).
Proof.
  intros Hk. unfold setHandler; simpl. rewrite lookup_insert.
  by destruct (decide (n = k)).
Qed.

Lemma setHandler_lookup oc n h :
  handlers (setHandler oc n h) !! n = Some h.
Proof. unfold setHandler; simpl. apply lookup_insert_eq. Qed.

(** Registration adds names and removes none. *)
Lemma register_keeps oc a ptr k :
  is_Some (handlers oc !! k) →
  is_Some (handlers (fst (register oc a ptr)) !! k).
Proof.
  intros Hk. unfold register.
  destruct ptr;
    repeat match goal with
           | |- context [if ?b then _ else _] => destruct b
           end; cbv beta iota; unfold fst; try done;
    unfold addSimpleHandler, addNegatableHandler, addCountingHandler,
      addIntHandler, addOptionalIntHandler, addIntArrayHandler,
      addFloatHandler, addOptionalFloatHandler, addFloatArrayHandler,
      addStringHandler, addOptionalStringHandler, addStringArrayHandler;
    repeat apply setHandler_keeps; done.
Qed.

Lemma parseOption_keeps oc desc ptr oc1 err k :
  parseOption oc desc ptr = (oc1, err) →
  is_Some (handlers oc !! k) → is_Some (handlers oc1 !! k).
Proof.
  unfold parseOption. intros H Hk.
  repeat match type of H with
         | match ?x with _ => _ end = _ => destruct x
         end; try (inversion H; subst; done).
  replace oc1 with (fst (register oc a ptr)) by (by rewrite H).
  by apply register_keeps.
Qed.

Lemma registeredLater_keeps oc1 oc2 k :
  registeredLater oc1 oc2 →
  is_Some (handlers oc1 !! k) → is_Some (handlers oc2 !! k).
Proof.
  induction 1 as [|oc desc ptr oc1 err oc2 Hcall _ IH]; [done|].
  intros Hk. apply IH. by eapply parseOption_keeps.
Qed.

(** A compatible pair whose name, or whose negated name when it is
    negatable, is in the registry: "option already exists", and the
    registry is as it was. *)
Lemma parseOption_conflict oc desc ptr a :
  validPair desc ptr a →
  is_Some (handlers oc !! name a)
  ∨ (negatable a = true ∧ is_Some (handlers oc !! negatedName (name a))) →
  parseOption oc desc ptr = (oc, Some NameConflict).
Proof.
  intros (m & pType & pArray & Hm & Ha & Hp & Hr) Hk.
  unfold parseOption. rewrite Hm, Ha, Hp, Hr. unfold checkNameConflict.
  destruct Hk as [Hk|[Hneg Hk]].
  - by rewrite (bool_decide_eq_true_2 _ Hk).
  - rewrite Hneg, (bool_decide_eq_true_2 _ Hk).
    by destruct (bool_decide (is_Some (handlers oc !! name a))).
Qed.

(** A compatible pair that registers puts its name in the registry, and
    its negated name as well when it is negatable. *)
Lemma register_names oc a ptr pType pArray :
  probe ptr = inl (pType, pArray) → reconcile a pType pArray = None →
  is_Some (handlers (fst (register oc a ptr)) !! name a)
  ∧ (negatable a = true →
     is_Some (handlers (fst (register oc a ptr)) !! negatedName (name a))).
Proof.
  intros Hp Hr. destruct a as [neg cnt opt arr dt nm].
  unfold reconcile in Hr. simpl in Hr.
  assert (Hlook : ∀ (hs : gmap string optionHandler) k h,
            is_Some (<[k := h]> hs !! k))
    by (intros; rewrite lookup_insert_eq; eauto).
  assert (Hlook2 : ∀ (hs : gmap string optionHandler) k k' h h',
            is_Some (<[k' := h']> (<[k := h]> hs) !! k)).
  { intros. rewrite lookup_insert. destruct (decide _); eauto. }
  destruct ptr; simpl in Hp; inversion Hp; subst;
    destruct neg, cnt, opt, arr; simpl in *;
    try (destruct (negb (Ascii.eqb dt "?") && negb (Ascii.eqb dt _));
         discriminate);
    split; try done; eauto.
Qed.

Lemma parseOption_registers oc desc ptr a oc1 :
  validPair desc ptr a →
  parseOption oc desc ptr = (oc1, None) →
  is_Some (handlers oc1 !! name a)
  ∧ (negatable a = true → is_Some (handlers oc1 !! negatedName (name a))).
Proof.
  intros (m & pType & pArray & Hm & Ha & Hp & Hr).
  unfold parseOption. rewrite Hm, Ha, Hp, Hr.
  destruct (checkNameConflict oc (name a) (negatable a)); [discriminate|].
  intros Hreg. replace oc1 with (fst (register oc a ptr)) by (by rewrite Hreg).
  by eapply register_names.
Qed.

(** C4. Name uniqueness: once a compatible pair has registered,
    whatever is registered afterwards, a compatible pair fails with
    "option already exists" when it has the same name (whatever its
    destination), when its name is the negated name of the earlier
    negatable flag, or when it is negatable and its negated name is the
    earlier name.  The check comes before any handler is made: the
    registry of the failing call is returned as it was.  More
    generally a compatible pair fails so on any registry that holds its
    name, or its negated name when it is negatable. *)
Theorem C4_name_conflict oc oc1 oc2 desc ptr a desc' ptr' a' :
  validPair desc ptr a → validPair desc' ptr' a' →
  parseOption oc desc ptr = (oc1, None) →
  registeredLater oc1 oc2 →
  name a' = name a
  ∨ (negatable a = true ∧ name a' = negatedName (name a))
  ∨ (negatable a' = true ∧ negatedName (name a') = name a) →
  parseOption oc2 desc' ptr' = (oc2, Some NameConflict)
  ∧ (∀ oc0,
       is_Some (handlers oc0 !! name a')
       ∨ (negatable a' = true
          ∧ is_Some (handlers oc0 !! negatedName (name a'))) →
       parseOption oc0 desc' ptr' = (oc0, Some NameConflict)).
Proof.
  intros Hv Hv' Hreg Hlater Hname.
  destruct (parseOption_registers _ _ _ _ _ Hv Hreg) as [Hn Hno].
  split; [|intros oc0; by apply parseOption_conflict].
  apply (parseOption_conflict _ _ _ _ Hv').
  destruct Hname as [->|[[Hneg ->]|[Hneg' Heq]]].
  - left. by eapply registeredLater_keeps.
  - left. eapply registeredLater_keeps; [done|]. by apply Hno.
  - right. split; [done|]. rewrite Heq. by eapply registeredLater_keeps.
Qed.

(** ** The order of the commit *)

Lemma fn_insert_spec {A} (f : loc → A) p v q :
  (<[p := v]> f) q = if decide (p = q) then v else f q.
Proof.
  destruct (decide (p = q)) as [->|Hne];
    [apply fn_lookup_insert | by apply fn_lookup_insert_ne].
Qed.

Lemma commit_intSlices c st p :
  intSlices (commit c st) p = intSlices st p ++ intsAppended p [c].
Proof.
  destruct st, c; simpl; rewrite ?app_nil_r; try reflexivity.
  rewrite fn_insert_spec. unfold intsAppended; simpl.
  destruct (decide (option = p)) as [->|Hne].
  - by rewrite bool_decide_eq_true_2.
  - rewrite bool_decide_eq_false_2 by done. simpl. by rewrite app_nil_r.
Qed.

Lemma commit_float64Slices c st p :
  float64Slices (commit c st) p
  = float64Slices st p ++ float64sAppended p [c].
Proof.
  destruct st, c; simpl; rewrite ?app_nil_r; try reflexivity.
  rewrite fn_insert_spec. unfold float64sAppended; simpl.
  destruct (decide (option = p)) as [->|Hne].
  - by rewrite bool_decide_eq_true_2.
  - rewrite bool_decide_eq_false_2 by done. simpl. by rewrite app_nil_r.
Qed.

Lemma commit_stringSlices c st p :
  stringSlices (commit c st) p = stringSlices st p ++ stringsAppended p [c].
Proof.
  destruct st, c; simpl; rewrite ?app_nil_r; try reflexivity.
  rewrite fn_insert_spec. unfold stringsAppended; simpl.
  destruct (decide (option = p)) as [->|Hne].
  - by rewrite bool_decide_eq_true_2.
  - rewrite bool_decide_eq_false_2 by done. simpl. by rewrite app_nil_r.
Qed.

Lemma appended_cons p c cs :
  intsAppended p (c :: cs) = intsAppended p [c] ++ intsAppended p cs
  ∧ float64sAppended p (c :: cs)
    = float64sAppended p [c] ++ float64sAppended p cs
  ∧ stringsAppended p (c :: cs)
    = stringsAppended p [c] ++ stringsAppended p cs.
Proof.
  unfold intsAppended, float64sAppended, stringsAppended.
  change (c :: cs) with ([c] ++ cs). by rewrite !omap_app.
Qed.

(** Appends accumulate in the order of the list. *)
Lemma commits_append cs st p :
  let st' := fold_left (λ st e, commit e st) cs st in
  intSlices st' p = intSlices st p ++ intsAppended p cs
  ∧ float64Slices st' p = float64Slices st p ++ float64sAppended p cs
  ∧ stringSlices st' p = stringSlices st p ++ stringsAppended p cs.
Proof.
  revert st. induction cs as [|c cs IH]; intros st.
  - simpl. by rewrite !app_nil_r.
  - destruct (IH (commit c st)) as (Hi & Hf & Hs).
    destruct (appended_cons p c cs) as (Ei & Ef & Es).
    cbn [fold_left] in *. cbv zeta. rewrite Hi, Hf, Hs, Ei, Ef, Es.
    rewrite commit_intSlices, commit_float64Slices, commit_stringSlices.
    by rewrite <- !app_assoc.
Qed.

(** A committer on another variable leaves a stored scalar alone. *)
Lemma commit_stored_other c c' st :
  target c' ≠ target c → stored c st → stored c (commit c' st).
Proof.
  destruct st, c, c'; simpl; try done; intros Hne Hst;
    rewrite fn_insert_spec; destruct (decide _) as [->|]; done.
Qed.

Lemma commit_stored c st :
  stored c (commit c st).
Proof. destruct st, c; simpl; try done; apply fn_lookup_insert. Qed.

(** The last committer on a scalar decides its value. *)
Lemma commits_last_wins pre c post st :
  Forall (λ c', target c' ≠ target c) post →
  stored c (fold_left (λ st e, commit e st) (pre ++ c :: post) st).
Proof.
  intros Hpost. rewrite fold_left_app. simpl.
  generalize (fold_left (λ st e, commit e st) pre st). intros st1.
  assert (H : stored c (commit c st1)) by apply commit_stored.
  revert H. generalize (commit c st1). clear st1.
  induction Hpost as [|c' post Hc' _ IH]; intros st1 H; simpl; [done|].
  apply IH. by apply commit_stored_other.
Qed.

(** C6. Commit in scan order: after a successful scan the collection
    holds, after the committers it had, one committer per turn of the
    loop in the order of the turns ([new]), and the storage is the
    result of committing the whole list from left to right.  Hence the
    occurrences of a sequence option append their values in the order
    of their occurrence, and the last committer that writes a scalar
    decides its value.  In particular ["--value"; "5"; "--value=3"]
    appends [5; 3] to an integer sequence and leaves [3] in an integer
    scalar. *)
Theorem C6_commit_in_scan_order oc args st rest oc' st' :
  processArgs oc args st = (Returns rest None, oc', st') →
  (∃ new rest1,
     advances (handlers oc) args new rest1
     ∧ scanTurn (handlers oc) rest1 = Break rest
     ∧ committers oc' = committers oc ++ new
     ∧ st' = fold_left (λ st e, commit e st) (committers oc ++ new) st)
  ∧ (∀ p,
       intSlices st' p = intSlices st p ++ intsAppended p (committers oc')
       ∧ float64Slices st' p
         = float64Slices st p ++ float64sAppended p (committers oc')
       ∧ stringSlices st' p
         = stringSlices st p ++ stringsAppended p (committers oc'))
  ∧ (∀ pre c post,
       committers oc' = pre ++ c :: post →
       Forall (λ c', target c' ≠ target c) post →
       stored c st')
  ∧ (∀ p st0, ∃ st1,
       GetOptions ["--value"; "5"; "--value=3"]
         [AString "value=i@"; PIntSlice p] st0
       = (Returns [] None, st1)
       ∧ intSlices st1 p = intSlices st0 p ++ [5; 3])
  ∧ (∀ p st0, ∃ st1,
       GetOptions ["--value"; "5"; "--value=3"]
         [AString "value=i"; PInt p] st0
       = (Returns [] None, st1)
       ∧ ints st1 p = 3).
Proof.
  intros Hrun. unfold processArgs in Hrun.
  destruct (scan_ends (handlers oc) args (committers oc))
    as (new & rest1 & Hadv & Hend).
  destruct (scan (handlers oc) args (committers oc)) as [r cs|e cs|m cs];
    inversion Hrun; subst; clear Hrun.
  destruct Hend as [Hturn ->]. unfold commitAll; simpl.
  split; [|split; [|split; [|split]]].
  - by exists new, rest1.
  - intros p. apply commits_append.
  - intros pre c post -> Hpost. by apply commits_last_wins.
  - intros p st0. eexists. split; [reflexivity|].
    destruct st0; simpl. rewrite !fn_lookup_insert.
    by rewrite <- app_assoc.
  - intros p st0. eexists. split; [reflexivity|].
    destruct st0; simpl. by rewrite fn_lookup_insert.
Qed.

(** ** No panic through the public entry point *)







(** ** The tests of the package

    Some of the cases of getopt_test.go, run on the embedding. *)

(** ExampleGetOptions *)
Example test_ExampleGetOptions (length data verbose : loc) st :
  ∃ st',
    GetOptions
      ["--files=hello.world"; "--length"; "10"; "--verbose"; "rest"]
      [AString "length=i"; PInt length; AString "files=s"; PString data;
       AString "verbose"; PBool verbose] st
    = (Returns ["rest"] None, st')
    ∧ ints st' length = 10 ∧ strings st' data = "hello.world"
    ∧ bools st' verbose = true.
Proof.
  eexists. split; [reflexivity|].
  destruct st; simpl. by rewrite !fn_lookup_insert.
Qed.

(** TestNegatable_ExtraNegative *)
Example test_Negatable_ExtraNegative flag st :
  ∃ st',
    GetOptions ["--noflag"; "not a flag"] [AString "flag!"; PBool flag] st
    = (Returns ["not a flag"] None, st')
    ∧ bools st' flag = false.
Proof.
  eexists. split; [reflexivity|].
  destruct st; simpl. by rewrite fn_lookup_insert.
Qed.

(** TestSimple_FlagNoFlag *)
Example test_Simple_FlagNoFlag flag st :
  GetOptions ["--noflag"; "not a flag"] [AString "flag"; PBool flag] st
  = (Returns ["--noflag"; "not a flag"]
       (Some (errors_New "Arg noflag not recognized")), st).
Proof. reflexivity. Qed.

(** TestSimple_FlagNoOptional *)
Example test_Simple_FlagNoOptional flag st :
  GetOptions ["--flag"; "not a flag"] [AString "flag:b"; PBool flag] st
  = (Returns ["--flag"; "not a flag"]
       (Some (errors_New "descriptor type mismatch")), st).
Proof. reflexivity. Qed.

(** TestCounting_Base *)
Example test_Counting_Base count st :
  ints st count = 3 →
  ∃ st',
    GetOptions ["--count"] [AString "count+"; PInt count] st
    = (Returns [] None, st')
    ∧ ints st' count = 4.
Proof.
  intros H3. eexists. split; [reflexivity|].
  destruct st; simpl in *. by rewrite fn_lookup_insert, H3.
Qed.

(** TestInteger_NoValue *)
Example test_Integer_NoValue value st :
  GetOptions ["--value"] [AString "value"; PInt value] st
  = (Returns ["--value"] (Some (errors_New "missing required argument")), st).
Proof. reflexivity. Qed.

(** TestInteger_InvalidArg *)
Example test_Integer_InvalidArg value st :
  GetOptions ["--value"; "not a flag"] [AString "value"; PInt value] st
  = (Returns ["--value"; "not a flag"]
       (Some (NumError "Atoi" "not a flag" ErrSyntax)), st).
Proof. reflexivity. Qed.

(** TestInteger_OptionalWithFlag *)
Example test_Integer_OptionalWithFlag value flag st :
  ∃ st',
    GetOptions ["--value"; "--flag"; "not a flag"]
      [AString "value:i"; PInt value; AString "flag"; PBool flag] st
    = (Returns ["not a flag"] None, st')
    ∧ ints st' value = 0 ∧ bools st' flag = true.
Proof.
  eexists. split; [reflexivity|].
  destruct st; simpl. by rewrite !fn_lookup_insert.
Qed.

(** TestString_Array2 *)
Example test_String_Array2 values st :
  stringSlices st values = [] →
  ∃ st',
    GetOptions ["--value"; "world"; "--value=earth"; "not a flag"]
      [AString "value@"; PStringSlice values] st
    = (Returns ["not a flag"] None, st')
    ∧ stringSlices st' values = ["world"; "earth"].
Proof.
  intros Hnil. eexists. split; [reflexivity|].
  destruct st; simpl in *. by rewrite !fn_lookup_insert, Hnil.
Qed.

(** TestBase_NoDesc *)
Example test_Base_NoDesc st :
  GetOptions ["notaflag"; "also not a flag"] [] st
  = (Returns ["notaflag"; "also not a flag"] None, st).
Proof. by destruct st. Qed.

(** * Further properties of the code *)

(** ** The descriptor expression *)

(** X1. The descriptor expression matches exactly the strings made of a
    non-empty run of name bytes, then nothing or a marker and a type
    letter, then nothing or one modifier byte; the groups of the match
    are these three parts. *)
Theorem X1_descriptor_expression desc n ty md :
  FindStringSubmatch desc = Some (Submatch n ty md)
  ↔ desc = n +:+ ty +:+ md ∧ nameText n ∧ typeText ty ∧ modifierText md.
Proof.
  split.
  - apply FindStringSubmatch_sound.
  - intros (-> & Hn & Hty & Hmd). by apply FindStringSubmatch_complete.
Qed.

(** X2. [parseOption] answers "descriptor not understood" exactly when
    the expression does not match the descriptor, and then leaves the
    collection as it was.  The attributes of a descriptor that matches
    are always read: the second "descriptor not understood" of
    [parseOption], for a modifier that is none of [!], [+], [@], is
    never returned. *)
Theorem X2_descriptor_not_understood oc desc ptr :
  (snd (parseOption oc desc ptr) = Some MalformedDescriptor
   ↔ FindStringSubmatch desc = None)
  ∧ (FindStringSubmatch desc = None
     → parseOption oc desc ptr = (oc, Some MalformedDescriptor))
  ∧ (∀ m, FindStringSubmatch desc = Some m
          → ∃ a, readAttributes m = inl a).
Proof.
  assert (Hattr : ∀ m, FindStringSubmatch desc = Some m
                       → ∃ a, readAttributes m = inl a).
  { intros [g1 g2 g3] Hm.
    apply FindStringSubmatch_sound in Hm as (_ & _ & Hty & Hmd).
    destruct (readAttributes_spec g1 g2 g3 Hty Hmd) as (a & Ha & _).
    by exists a. }
  assert (Hnone : FindStringSubmatch desc = None
                  → parseOption oc desc ptr = (oc, Some MalformedDescriptor)).
  { intros Hm. unfold parseOption. by rewrite Hm. }
  split; [|by split].
  split.
  - intros Herr. destruct (FindStringSubmatch desc) as [m|] eqn:Hm; [|done].
    destruct (Hattr m eq_refl) as [a Ha].
    by destruct (parseOption_not_malformed oc desc ptr m a Hm Ha).
  - intros Hm. by rewrite (Hnone Hm).
Qed.

Lemma allBytes_app f s t :
  allBytes f (s +:+ t) = allBytes f s && allBytes f t.
Proof.
  induction s as [|c s IH]; [reflexivity|].
  change (String c s +:+ t) with (String c (s +:+ t)). simpl.
  by rewrite IH, andb_assoc.
Qed.

Lemma allBytes_weaken (f g : ascii → bool) s :
  (∀ c, f c = true → g c = true) → allBytes f s = true → allBytes g s = true.
Proof.
  intros Hfg. induction s as [|c s IH]; simpl; [done|].
  rewrite !andb_true_iff. intros [Hc Hs]. split; [by apply Hfg | by apply IH].
Qed.

Lemma lastByte_cons c u :
  lastByte (String c u) = match lastByte u with
                          | Some d => Some d
                          | None => Some c
                          end.
Proof.
  revert c. induction u as [|c' u IH]; intros c; [reflexivity|].
  change (lastByte (String c (String c' u))) with (lastByte (String c' u)).
  rewrite (IH c'). by destruct (lastByte u).
Qed.

Lemma lastByte_app s t :
  lastByte (s +:+ t) = match lastByte t with
                       | Some c => Some c
                       | None => lastByte s
                       end.
Proof.
  induction s as [|c s IH].
  - change ("" +:+ t) with t. by destruct (lastByte t).
  - change (String c s +:+ t) with (String c (s +:+ t)).
    rewrite !lastByte_cons, IH. by destruct (lastByte t), (lastByte s).
Qed.

Lemma lastByte_allBytes f s c :
  allBytes f s = true → lastByte s = Some c → f c = true.
Proof.
  induction s as [|c0 s IH]; simpl; [discriminate|].
  rewrite andb_true_iff. intros [Hc0 Hs].
  destruct s; [by intros [= <-] | by apply IH].
Qed.

Lemma typeByte_name t : typeByte t = true → nameByte t = true.
Proof.
  intros Ht. by destruct (typeByte_cases t Ht) as [->|[->|[->| ->]]].
Qed.

Lemma typeByte_not_marker t : typeByte t = true → markerByte t = false.
Proof.
  intros Ht. by destruct (typeByte_cases t Ht) as [->|[->|[->| ->]]].
Qed.

Lemma nameByte_not_marker c : nameByte c = true → markerByte c = false.
Proof.
  intros Hc. destruct (markerByte c) eqn:Hm; [|done].
  apply markerByte_not_name in Hm. congruence.
Qed.

(** X3. The descriptors that are never understood, whatever the
    destination: the empty descriptor, a descriptor that ends with a
    marker ([=] or [:], a marker with no type letter, as ["value:"]), and
    a descriptor with a byte that is neither a name byte, a marker nor
    a modifier (as in ["name|alt=s"], ["name=i{2}"] and ["name=s%"]).
    [parseOption] answers "descriptor not understood" and registers
    nothing. *)
Theorem X3_descriptors_rejected oc desc ptr :
  desc = ""
  ∨ allBytes alphabetByte desc = false
  ∨ (∃ c, lastByte desc = Some c ∧ markerByte c = true) →
  parseOption oc desc ptr = (oc, Some MalformedDescriptor).
Proof.
  intros Hbad. unfold parseOption.
  destruct (FindStringSubmatch desc) as [[n ty md]|] eqn:Hm; [|done].
  exfalso.
  apply FindStringSubmatch_sound in Hm as (-> & [Hne Hn] & Hty & Hmd).
  destruct Hbad as [Hempty|[Hbyte|(c & Hlast & Hc)]].
  - destruct n; [done | discriminate].
  - rewrite !allBytes_app in Hbyte.
    assert (Hn' : allBytes alphabetByte n = true).
    { apply (allBytes_weaken nameByte); [|done].
      intros c Hc. unfold alphabetByte. by rewrite Hc. }
    assert (Hty' : allBytes alphabetByte ty = true).
    { destruct Hty as [|m t Hm Ht]; [done|]. simpl. unfold alphabetByte.
      by rewrite Hm, (typeByte_name t Ht), orb_true_r. }
    assert (Hmd' : allBytes alphabetByte md = true).
    { destruct Hmd as [|c Hc]; [done|]. simpl. unfold alphabetByte.
      by rewrite Hc, !orb_true_r. }
    by rewrite Hn', Hty', Hmd' in Hbyte.
  - rewrite !lastByte_app in Hlast.
    destruct Hmd as [|c' Hc'].
    + destruct Hty as [|m t Hm Ht].
      * simpl in Hlast.
        pose proof (lastByte_allBytes _ _ _ Hn Hlast) as Hname.
        apply nameByte_not_marker in Hname. congruence.
      * simpl in Hlast. inversion Hlast; subst.
        apply typeByte_not_marker in Ht. congruence.
    + simpl in Hlast. inversion Hlast; subst.
      apply modifierByte_not_marker in Hc'. congruence.
Qed.

(** ** Registration *)

Lemma parseOption_error_unchanged oc desc ptr oc1 e :
  parseOption oc desc ptr = (oc1, Some e) → oc1 = oc.
Proof.
  unfold parseOption.
  destruct (FindStringSubmatch desc) as [m|]; [|by intros [= <-]].
  destruct (readAttributes m) as [a|e0]; [|by intros [= <-]].
  destruct (probe ptr) as [[pType pArray]|e0] eqn:Hp; [|by intros [= <-]].
  destruct (reconcile a pType pArray); [by intros [= <-]|].
  destruct (checkNameConflict oc (name a) (negatable a)); [by intros [= <-]|].
  intros Hreg. pose proof (register_outcome oc a ptr _ _ Hp) as Hnone.
  rewrite Hreg in Hnone. discriminate.
Qed.

Lemma parseOptions_app pre post oc oc1 :
  parseOptions oc pre = (oc1, None) →
  parseOptions oc (pre ++ post) = parseOptions oc1 post.
Proof.
  revert oc. induction pre as [|a0|a0 a1 pre IH] using pairs_ind; intros oc.
  - simpl. by intros [= ->].
  - simpl. discriminate.
  - simpl. destruct a0; try discriminate.
    destruct (parseOption oc s a1) as [oc2 [e|]]; [discriminate|].
    apply IH.
Qed.

(** X4. [parseOptions] registers the pairs from left to right and stops
    at the first one that fails: after pairs that register, the
    remaining list is handled from the collection they leave; a pair
    whose descriptor is not understood, not compatible or in conflict
    ends the registration with its error, and a pair whose first
    element is not a string ends it with "descriptor must be string".
    In both cases the collection holds exactly the pairs before the
    failing one, and what follows it is not looked at. *)
Theorem X4_registration_stops_at_first_failure oc pre oc1 d p post :
  parseOptions oc pre = (oc1, None) →
  parseOptions oc (pre ++ post) = parseOptions oc1 post
  ∧ (∀ desc e,
       d = AString desc → snd (parseOption oc1 desc p) = Some e →
       parseOptions oc (pre ++ d :: p :: post) = (oc1, Some e))
  ∧ ((∀ desc, d ≠ AString desc) →
     parseOptions oc (pre ++ d :: p :: post) = (oc1, Some NotAString)).
Proof.
  intros Hpre. split; [by apply parseOptions_app|]. split.
  - intros desc e -> He. rewrite (parseOptions_app _ _ _ _ Hpre). simpl.
    destruct (parseOption oc1 desc p) as [oc2 err] eqn:Hp. simpl in He.
    subst err. by rewrite (parseOption_error_unchanged _ _ _ _ _ Hp).
  - intros Hd. rewrite (parseOptions_app _ _ _ _ Hpre). simpl.
    destruct d; try reflexivity. by destruct (Hd s).
Qed.

Lemma checkNameConflict_None oc n neg :
  checkNameConflict oc n neg = None
  ↔ handlers oc !! n = None
    ∧ (neg = true → handlers oc !! negatedName n = None).
Proof.
  unfold checkNameConflict.
  destruct (handlers oc !! n) as [h|] eqn:Hn.
  - rewrite bool_decide_eq_true_2 by eauto. split; [discriminate|].
    by intros [? _].
  - rewrite bool_decide_eq_false_2 by (intros [? ?]; discriminate).
    destruct neg; simpl.
    + destruct (handlers oc !! negatedName n) as [h|] eqn:Hno.
      * rewrite bool_decide_eq_true_2 by eauto. split; [discriminate|].
        intros [_ H]. by specialize (H eq_refl).
      * rewrite bool_decide_eq_false_2 by (intros [? ?]; discriminate).
        by split.
    + split; [|done]. intros _. split; [done | discriminate].
Qed.

(** X5. When registration succeeds: [parseOption] returns no error
    exactly when the descriptor is understood, the destination is
    compatible with it, the name is not in the registry, and, for a
    negatable flag, the negated name is not in it either.  Nothing else
    is looked at: a destination that another option is already bound to
    is accepted. *)
Theorem X5_registration_succeeds oc desc ptr :
  snd (parseOption oc desc ptr) = None
  ↔ ∃ a, validPair desc ptr a
         ∧ handlers oc !! name a = None
         ∧ (negatable a = true → handlers oc !! negatedName (name a) = None).
Proof.
  unfold parseOption, validPair. split.
  - destruct (FindStringSubmatch desc) as [m|] eqn:Hm; [|discriminate].
    destruct (readAttributes m) as [a|e0] eqn:Ha; [|discriminate].
    destruct (probe ptr) as [[pType pArray]|e0] eqn:Hp; [|discriminate].
    destruct (reconcile a pType pArray) eqn:Hr; [discriminate|].
    destruct (checkNameConflict oc (name a) (negatable a)) eqn:Hc;
      [discriminate|].
    intros _. apply checkNameConflict_None in Hc as [Hn Hno].
    exists a. split; [|done]. by exists m, pType, pArray.
  - intros (a & (m & pType & pArray & Hm & Ha & Hp & Hr) & Hn & Hno).
    rewrite Hm, Ha, Hp, Hr.
    rewrite (proj2 (checkNameConflict_None oc (name a) (negatable a)))
      by done.
    by eapply register_outcome.
Qed.

Lemma negatedName_ne n : negatedName n ≠ n.
Proof.
  unfold negatedName. intros H. apply (f_equal len) in H.
  rewrite len_append in H. unfold len in H. simpl in H. lia.
Qed.

(** The handler a compatible pair puts under its name. *)
Lemma register_lookup oc a ptr pType pArray :
  probe ptr = inl (pType, pArray) → reconcile a pType pArray = None →
  ∃ h, handlers (fst (register oc a ptr)) !! name a = Some h
       ∧ getType h
         = (if match ptr with PBool _ => true | _ => false end || counting a
            then optionNoArg
            else if optional a then optionOptionalArg
            else optionRequiredArg)
       ∧ Some (writes h) = destination ptr
       ∧ (∀ p, ptr = PBool p → h = optionSimpleHandler optionNoArg true p).
Proof.
  intros Hp Hr. destruct a as [neg cnt opt arr dt nm].
  unfold reconcile in Hr. simpl in Hr.
  pose proof (negatedName_ne nm) as Hne.
  destruct ptr; simpl in Hp; inversion Hp; subst;
    destruct neg, cnt, opt, arr; simpl in *;
    try (destruct (negb (Ascii.eqb dt "?") && negb (Ascii.eqb dt _));
         discriminate);
    try rewrite (lookup_insert_ne _ (negatedName nm) nm) by done;
    rewrite lookup_insert_eq; eexists; repeat split;
    by intros ? [= ->].
Qed.

(** X6. The handler of a registered option: after a compatible pair has
    registered, the registry holds under its name a handler that
    writes the destination of the pair and takes no argument when the
    destination is a boolean or the descriptor is counting, an optional
    argument when the type marker is [:] (and the descriptor is not
    counting), and a required argument otherwise.  So a counting
    descriptor with the optional marker, as ["v:i+"], takes no
    argument. *)
Theorem X6_registered_handler oc desc ptr a oc1 :
  validPair desc ptr a →
  parseOption oc desc ptr = (oc1, None) →
  ∃ h, handlers oc1 !! name a = Some h
       ∧ getType h
         = (if match ptr with PBool _ => true | _ => false end || counting a
            then optionNoArg
            else if optional a then optionOptionalArg
            else optionRequiredArg)
       ∧ Some (writes h) = destination ptr.
Proof.
  intros (m & pType & pArray & Hm & Ha & Hp & Hr).
  unfold parseOption. rewrite Hm, Ha, Hp, Hr.
  destruct (checkNameConflict oc (name a) (negatable a)); [discriminate|].
  intros Hreg. replace oc1 with (fst (register oc a ptr)) by (by rewrite Hreg).
  destruct (register_lookup oc a ptr _ _ Hp Hr) as (h & Hh & Hty & Hw & _).
  by exists h.
Qed.

Lemma register_negated oc a p :
  reconcile a "b" false = None →
  handlers (fst (register oc a (PBool p))) !! negatedName (name a)
  = if negatable a then Some (optionSimpleHandler optionNoArg false p)
    else handlers oc !! negatedName (name a).
Proof.
  intros Hr. destruct a as [neg cnt opt arr dt nm]. simpl.
  pose proof (negatedName_ne nm) as Hne.
  destruct neg; simpl.
  - by rewrite lookup_insert_eq.
  - by rewrite lookup_insert_ne.
Qed.

(** X7. A boolean option and its negated name: a compatible pair with a
    boolean destination puts under its name a handler that stores
    [true]; when the descriptor is negatable it also puts under
    ["no"] followed by the name a handler that stores [false] in the
    same destination; when it is not, the entry of the negated name is
    left as it was. *)
Theorem X7_negated_name oc desc p a oc1 :
  validPair desc (PBool p) a →
  parseOption oc desc (PBool p) = (oc1, None) →
  handlers oc1 !! name a = Some (optionSimpleHandler optionNoArg true p)
  ∧ handlers oc1 !! negatedName (name a)
    = (if negatable a then Some (optionSimpleHandler optionNoArg false p)
       else handlers oc !! negatedName (name a)).
Proof.
  intros (m & pType & pArray & Hm & Ha & Hp & Hr).
  unfold parseOption. rewrite Hm, Ha, Hp, Hr.
  destruct (checkNameConflict oc (name a) (negatable a)); [discriminate|].
  intros Hreg.
  replace oc1 with (fst (register oc a (PBool p))) by (by rewrite Hreg).
  destruct (register_lookup oc a (PBool p) _ _ Hp Hr)
    as (h & Hh & _ & _ & Hbool).
  rewrite (Hbool p eq_refl) in Hh. split; [done|].
  simpl in Hp. inversion Hp; subst. by apply register_negated.
Qed.

Lemma register_frame oc a ptr k :
  k ≠ name a → (negatable a = true → k ≠ negatedName (name a)) →
  handlers (fst (register oc a ptr)) !! k = handlers oc !! k
  ∧ committers (fst (register oc a ptr)) = committers oc.
Proof.
  intros Hk Hno. destruct a as [neg cnt opt arr dt nm]. simpl in *.
  assert (Hk' : nm ≠ k) by congruence.
  destruct ptr, neg, cnt, opt; simpl; split; try reflexivity;
    try (assert (Hno' : negatedName nm ≠ k)
           by (intros <-; by apply Hno));
    by rewrite ?lookup_insert_ne.
Qed.

(** X8. What a registration touches: [parseOption] never changes the
    list of committers; when it returns an error it leaves the whole
    collection as it was; when it registers, the only entries of the
    registry it changes are the name of the descriptor and, for a
    negatable flag, its negated name. *)
Theorem X8_registration_frame oc desc ptr oc1 err :
  parseOption oc desc ptr = (oc1, err) →
  committers oc1 = committers oc
  ∧ (∀ e, err = Some e → oc1 = oc)
  ∧ (∀ m a k,
       FindStringSubmatch desc = Some m → readAttributes m = inl a →
       k ≠ name a → (negatable a = true → k ≠ negatedName (name a)) →
       handlers oc1 !! k = handlers oc !! k).
Proof.
  intros Hcall.
  assert (Herr : ∀ e, err = Some e → oc1 = oc).
  { intros e ->. by eapply parseOption_error_unchanged. }
  destruct err as [e|]; [rewrite (Herr e eq_refl); by repeat split|].
  split; [|split; [done|]].
  - unfold parseOption in Hcall.
    repeat match type of Hcall with
           | match ?x with _ => _ end = _ =>
               lazymatch x with
               | register _ _ _ => fail
               | _ => destruct x; try discriminate
               end
           end.
    replace oc1 with (fst (register oc a ptr)) by (by rewrite Hcall).
    destruct a as [neg cnt opt arr dt nm].
    by destruct ptr, neg, cnt, opt.
  - intros m a k Hm Ha Hk Hno. unfold parseOption in Hcall.
    rewrite Hm, Ha in Hcall.
    repeat match type of Hcall with
           | match ?x with _ => _ end = _ =>
               lazymatch x with
               | register _ _ _ => fail
               | _ => destruct x; try discriminate
               end
           end.
    replace oc1 with (fst (register oc a ptr)) by (by rewrite Hcall).
    by apply register_frame.
Qed.

Lemma nameByte_not_eq c : nameByte c = true → Ascii.eqb c "=" = false.
Proof.
  intros Hc. destruct (Ascii.eqb_spec c "=") as [->|]; [discriminate | done].
Qed.

Lemma nameText_no_eq k : nameText k → IndexRune k "=" = -1.
Proof.
  intros [_ Hk]. induction k as [|c k IH]; [reflexivity|].
  simpl in Hk. apply andb_true_iff in Hk as [Hc Hk]. simpl.
  rewrite (nameByte_not_eq c Hc), (IH Hk). reflexivity.
Qed.

Lemma nameText_negated n : nameText n → nameText (negatedName n).
Proof.
  intros [_ Hn]. split; [discriminate|].
  unfold negatedName. by rewrite allBytes_app, Hn.
Qed.

Lemma parseOption_names oc desc ptr oc1 err :
  (∀ k, is_Some (handlers oc !! k) → nameText k) →
  parseOption oc desc ptr = (oc1, err) →
  ∀ k, is_Some (handlers oc1 !! k) → nameText k.
Proof.
  intros Hinv Hcall k Hk.
  destruct err as [e|];
    [rewrite (parseOption_error_unchanged _ _ _ _ _ Hcall) in Hk;
     by apply Hinv|].
  unfold parseOption in Hcall.
  destruct (FindStringSubmatch desc) as [[n ty md]|] eqn:Hm; [|discriminate].
  apply FindStringSubmatch_sound in Hm as (_ & Hn & Hty & Hmd).
  destruct (readAttributes_spec n ty md Hty Hmd) as (a & Ha & Hname & _).
  rewrite Ha in Hcall.
  repeat match type of Hcall with
         | match ?x with _ => _ end = _ =>
             lazymatch x with
             | register _ _ _ => fail
             | _ => destruct x; try discriminate
             end
         end.
  replace oc1 with (fst (register oc a ptr)) in Hk by (by rewrite Hcall).
  destruct (decide (k = name a)) as [->|Hne]; [by rewrite Hname|].
  destruct (decide (k = negatedName (name a))) as [->|Hne'];
    [rewrite Hname; by apply nameText_negated|].
  rewrite (proj1 (register_frame oc a ptr k Hne (λ _, Hne'))) in Hk.
  by apply Hinv.
Qed.

Lemma parseOptions_names a oc oc1 err :
  (∀ k, is_Some (handlers oc !! k) → nameText k) →
  parseOptions oc a = (oc1, err) →
  ∀ k, is_Some (handlers oc1 !! k) → nameText k.
Proof.
  revert oc oc1 err.
  induction a as [|a0|a0 a1 a IH] using pairs_ind;
    intros oc oc1 err Hinv; simpl.
  - by intros [= <- <-].
  - by intros [= <- <-].
  - destruct a0; try (by intros [= <- <-]).
    destruct (parseOption oc s a1) as [oc2 [e|]] eqn:Hp.
    + intros [= <- <-]. by eapply parseOption_names.
    + apply IH. by eapply parseOption_names.
Qed.

Lemma registry_names a oc err k :
  parseOptions newOptionCollection a = (oc, err) →
  is_Some (handlers oc !! k) → nameText k.
Proof.
  intros Hreg. eapply parseOptions_names; [|exact Hreg].
  intros k' [h Hh]. simpl in Hh. by rewrite lookup_empty in Hh.
Qed.

(** X9. The names of a registry: every name that [parseOptions] puts in
    a collection that was empty is a non-empty run of name bytes (the
    negated names included), so no registered name is empty or has an
    [=] in it. *)
Theorem X9_registered_names a oc err :
  parseOptions newOptionCollection a = (oc, err) →
  ∀ k, is_Some (handlers oc !! k) →
       nameText k ∧ IndexRune k "=" = -1.
Proof.
  intros Hreg k Hk.
  assert (Hn : nameText k) by (by eapply registry_names).
  split; [done | by apply nameText_no_eq].
Qed.

(** ** The remainder *)

(** A turn that goes on drops one or two tokens from the front. *)
Lemma scanTurn_Continue_drops hs rest rest1 c :
  scanTurn hs rest = Continue rest1 c →
  ∃ used, rest = used ++ rest1 ∧ used ≠ [].
Proof.
  unfold scanTurn, invoke. intros Hturn.
  destruct rest as [|tok rest0]; [discriminate|].
  repeat match type of Hturn with
         | match ?x with _ => _ end = _ => destruct x eqn:?; simpl in *
         | _ => discriminate
         end;
    inversion Hturn; subst;
    first [ by exists [tok] | by (eexists [tok; _]) ].
Qed.

(** A turn that ends the loop: at the end of the tokens, at a token
    that does not begin with the prefix, or at the marker, which it
    drops. *)
Lemma scanTurn_Break_cases hs rest r :
  scanTurn hs rest = Break r →
  (r = rest ∧ match rest with
              | [] => True
              | tok :: _ => HasPrefix tok "--" = false
              end)
  ∨ rest = "--" :: r.
Proof.
  intros Hturn. unfold scanTurn, invoke in Hturn.
  destruct rest as [|tok rest0]; [inversion Hturn; by left|].
  destruct (HasPrefix tok "--") eqn:Hpre; cbn [negb] in Hturn;
    [|inversion Hturn; by left].
  destruct (len (from 2 tok) =? 0) eqn:Hlen.
  - inversion Hturn; subst. right. f_equal.
    unfold HasPrefix in Hpre.
    destruct tok as [|c1 [|c2 t]]; simpl in Hpre; try discriminate.
    { match type of Hpre with
      | match ?d with _ => _ end = _ => destruct d; discriminate
      end. }
    repeat match type of Hpre with
           | match ?d with _ => _ end = _ =>
               destruct d as [<-|]; [|discriminate]
           end.
    destruct t; [done | discriminate].
  - repeat match type of Hturn with
           | match ?x with _ => _ end = _ => destruct x eqn:?; simpl in *
           | _ => discriminate
           end.
Qed.

Lemma advances_drops hs rest new rest' :
  advances hs rest new rest' → ∃ used, rest = used ++ rest'.
Proof.
  induction 1 as [rest|rest rest1 c new rest' Hturn _ [used' ->]].
  - by exists [].
  - destruct (scanTurn_Continue_drops _ _ _ _ Hturn) as (used & -> & _).
    exists (used ++ used'). by rewrite app_assoc.
Qed.

(** X11. The remainder of a successful scan is the token list without
    a front part.  Either nothing follows the consumed part, or the
    remainder begins with a token that does not begin with the prefix,
    or the last consumed token is the marker ["--"].  So, unless the
    marker was given, the remainder never begins with an option. *)
Theorem X11_remainder_is_a_tail oc args st rest oc' st' :
  processArgs oc args st = (Returns rest None, oc', st') →
  (∃ used, args = used ++ rest
           ∧ match rest with
             | [] => True
             | tok :: _ => HasPrefix tok "--" = false
             end)
  ∨ (∃ used, args = used ++ "--" :: rest).
Proof.
  intros Hrun. unfold processArgs in Hrun.
  destruct (scan_ends (handlers oc) args (committers oc))
    as (new & rest1 & Hadv & Hend).
  destruct (scan (handlers oc) args (committers oc)) as [r cs|e cs|m cs];
    inversion Hrun; subst; clear Hrun.
  destruct Hend as [Hturn _].
  destruct (advances_drops _ _ _ _ Hadv) as [used ->].
  destruct (scanTurn_Break_cases _ _ _ Hturn) as [[-> Hfirst]| ->].
  - left. by exists used.
  - right. by exists used.
Qed.

Lemma parseOption_committers oc desc ptr oc1 err :
  parseOption oc desc ptr = (oc1, err) → committers oc1 = committers oc.
Proof.
  intros Hcall. destruct err as [e|];
    [by rewrite (parseOption_error_unchanged _ _ _ _ _ Hcall)|].
  unfold parseOption in Hcall.
  repeat match type of Hcall with
         | match ?x with _ => _ end = _ =>
             lazymatch x with
             | register _ _ _ => fail
             | _ => destruct x; try discriminate
             end
         end.
  replace oc1 with (fst (register oc a ptr)) by (by rewrite Hcall).
  destruct a as [neg cnt opt arr dt nm].
  by destruct ptr, neg, cnt, opt.
Qed.

Lemma parseOptions_committers a oc oc1 err :
  parseOptions oc a = (oc1, err) → committers oc1 = committers oc.
Proof.
  revert oc. induction a as [|a0|a0 a1 a IH] using pairs_ind;
    intros oc; simpl.
  - by intros [= <- <-].
  - by intros [= <- <-].
  - destruct a0; try (by intros [= <- <-]).
    destruct (parseOption oc s a1) as [oc2 [e|]] eqn:Hp.
    + intros [= <- <-]. by apply (parseOption_committers _ _ _ _ _ Hp).
    + intros H. rewrite (IH _ H).
      by apply (parseOption_committers _ _ _ _ _ Hp).
Qed.

(** X12. Nothing to scan: when the token list is empty or its first
    token does not begin with the prefix (a single-dash token such as
    ["-x"] included) and the pairs register, [GetOptions] returns the
    token list as it is, without an error, and the storage is as it
    was. *)
Theorem X12_no_leading_option args a st oc :
  match args with
  | [] => True
  | tok :: _ => HasPrefix tok "--" = false
  end →
  parseOptions newOptionCollection a = (oc, None) →
  GetOptions args a st = (Returns args None, st).
Proof.
  intros Hargs Hreg. unfold GetOptions, processArgs. rewrite Hreg.
  rewrite (parseOptions_committers _ _ _ _ Hreg). simpl committers.
  rewrite scan_turn.
  assert (Hturn : scanTurn (handlers oc) args = Break args).
  { destruct args as [|tok rest]; [reflexivity|]. by apply scanTurn_plain. }
  rewrite Hturn. reflexivity.
Qed.

(** ** Values that are given and not wanted, wanted and not usable *)

(** A token of the form [--opt=x], with or without a name. *)
Lemma scanTurn_inline_lookup hs opt x rest :
  IndexRune opt "=" = -1 →
  scanTurn hs (("--" +:+ opt +:+ String "=" x) :: rest)
  = match hs !! opt with
    | None => Return (UnrecognizedOption opt)
    | Some h => invoke h [x] rest
    end.
Proof.
  intros Heq. unfold scanTurn.
  rewrite HasPrefix_dashes.
  change (from 2 ("--" +:+ opt +:+ String "=" x)) with (opt +:+ String "=" x).
  cbv beta iota zeta. change (negb true) with false. cbv iota.
  rewrite len_nonempty by (destruct opt; discriminate).
  rewrite IndexRune_inline by done.
  pose proof (len_nonneg opt).
  destruct (Z.ltb_spec (-1) (len opt)); [|lia].
  rewrite from_inline, upto_inline.
  destruct (hs !! opt) as [h|]; [|reflexivity].
  change (0 <? Z.of_nat (length [x])) with true.
  by destruct (bool_decide (getType h = optionNoArg)).
Qed.

(** X15. An inline value on an option that takes none is dropped
    without notice: for a registered flag or counting option,
    [--opt=x] does what [--opt] does, whatever [x] is; it consumes one
    token and appends the committer of the handler.  So [--flag=false]
    sets the flag to [true]. *)
Theorem X15_inline_value_ignored hs opt h x rest :
  hs !! opt = Some h →
  (∃ v p, h = optionSimpleHandler optionNoArg v p)
  ∨ (∃ p, h = optionCountingHandler optionNoArg p) →
  opt ≠ "" → IndexRune opt "=" = -1 →
  ∃ c, handle h [] = Ok c
       ∧ scanTurn hs (("--" +:+ opt +:+ String "=" x) :: rest)
         = Continue rest c
       ∧ scanTurn hs (("--" +:+ opt) :: rest) = Continue rest c.
Proof.
  intros Hh Hkind Hne Heq.
  rewrite (scanTurn_inline_lookup hs opt x rest Heq), Hh.
  rewrite (scanTurn_separate _ _ _ _ Hne Heq Hh).
  destruct Hkind as [(v & p & ->)|(p & ->)]; eexists; by repeat split.
Qed.

(** X16. An optional argument is taken when it is there: for an
    optional-argument option whose token has no inline value, a next
    token that does not begin with the prefix is consumed and handed to
    the handler, whatever it is.  When it does not convert, the whole
    call fails with the error of the conversion and nothing is stored;
    the token is not left as a positional argument. *)
Theorem X16_optional_argument_taken oc opt h next rest st :
  handlers oc !! opt = Some h →
  getType h = optionOptionalArg →
  opt ≠ "" → IndexRune opt "=" = -1 →
  HasPrefix next "--" = false →
  scanTurn (handlers oc) (("--" +:+ opt) :: next :: rest)
  = invoke h [next] rest
  ∧ (∀ e, handle h [next] = Err e →
          processArgs oc (("--" +:+ opt) :: next :: rest) st
          = (Returns (("--" +:+ opt) :: next :: rest) (Some e), oc, st)).
Proof.
  intros Hh Hty Hne Heq Hnext.
  assert (Hturn : scanTurn (handlers oc) (("--" +:+ opt) :: next :: rest)
                  = invoke h [next] rest).
  { rewrite (scanTurn_separate _ _ _ _ Hne Heq Hh), Hty, Hnext.
    reflexivity. }
  split; [exact Hturn|].
  intros e He. unfold processArgs. rewrite scan_turn, Hturn.
  unfold invoke. rewrite He. by destruct oc.
Qed.

(** X17. An option that is not registered: at the first token, [--opt]
    and [--opt=x] with a name that is not in the registry make
    [processArgs] return the token list with the error
    "Arg <name> not recognized", where the name is the token without
    the prefix and without the inline value; the collection and the
    storage are as they were.  The token [--=x] is the case of the
    empty name. *)
Theorem X17_unrecognized_option oc opt x rest st :
  handlers oc !! opt = None →
  IndexRune opt "=" = -1 →
  (let args := ("--" +:+ opt +:+ String "=" x) :: rest in
   processArgs oc args st
   = (Returns args (Some (errors_New ("Arg " +:+ opt +:+ " not recognized"))),
      oc, st))
  ∧ (opt ≠ "" →
     let args := ("--" +:+ opt) :: rest in
     processArgs oc args st
     = (Returns args
          (Some (errors_New ("Arg " +:+ opt +:+ " not recognized"))),
        oc, st)).
Proof.
  intros Hh Heq. split.
  - intros args. unfold processArgs, args.
    rewrite scan_turn, (scanTurn_inline_lookup _ opt x rest Heq), Hh.
    by destruct oc.
  - intros Hne args. unfold processArgs, args. rewrite scan_turn.
    unfold scanTurn. rewrite HasPrefix_dashes.
    change (from 2 ("--" +:+ opt)) with opt.
    cbv beta iota zeta. change (negb true) with false. cbv iota.
    rewrite len_nonempty by done. rewrite Heq.
    change (-1 <? -1) with false. cbv iota. rewrite Hh.
    by destruct oc.
Qed.

(** ** What is written, and where *)









(** ** Counting *)







(** ** Panics *)


(** ** The command line *)




(** X19. A command line without arguments: when the descriptors and
    destinations register, [GetOSOptions] on an [os.Args] that holds the
    program name only panics on [os.Args[1]]; a program that is run
    without arguments does not get past the call. *)
Theorem X19_GetOSOptions_without_arguments prog a oc st :
  parseOptions newOptionCollection a = (oc, None) →
  GetOSOptions [prog] a st
  = (Panic "index out of range [1] with length 1", [prog], st).
Proof.
  intros Hreg. unfold GetOSOptions, GetOptions, processArgs. rewrite Hreg.
  rewrite (parseOptions_committers _ _ _ _ Hreg). simpl committers.
  by rewrite scan_turn.
Qed.

(** ** A required argument *)

(** X20. A required argument is taken as it comes: for a
    required-argument option whose token has no inline value, the next
    token is consumed and handed to the handler without a look at it.
    A token that begins with the prefix, another option or the marker
    ["--"] included, becomes the value: after a required string option
    the marker is stored and does not end the options. *)
Theorem X20_required_argument_taken hs opt h next rest :
  hs !! opt = Some h →
  getType h = optionRequiredArg →
  opt ≠ "" → IndexRune opt "=" = -1 →
  scanTurn hs (("--" +:+ opt) :: next :: rest) = invoke h [next] rest
  ∧ (∀ p, h = optionStringHandler optionRequiredArg p →
          scanTurn hs (("--" +:+ opt) :: "--" :: rest)
          = Continue rest (optionSimpleCommitter_string "--" p))
  ∧ scanTurn hs [("--" +:+ opt)] = Return MissingArgument.
Proof.
  intros Hh Hty Hne Heq.
  rewrite !(scanTurn_separate _ _ _ _ Hne Heq Hh), Hty.
  split; [reflexivity|]. split; [|reflexivity].
  intros p ->. reflexivity.
Qed.

(** ** The errors of a call *)

Lemma parseOption_errors oc desc ptr oc1 e :
  parseOption oc desc ptr = (oc1, Some e) →
  e = MalformedDescriptor ∨ e = UnsupportedDestinationType
  ∨ e = TypeMismatch ∨ e = NameConflict.
Proof.
  assert (Hread : ∀ m e0, readAttributes m = inr e0 →
                          e0 = MalformedDescriptor).
  { intros m e0. unfold readAttributes.
    destruct (match3 m) as [|c s]; [by destruct (match2 m) as [|? [|? ?]]|].
    repeat match goal with
           | |- context [if ?b then _ else _] => destruct b
           end;
      try (by destruct (match2 m) as [|? [|? ?]]).
    by intros [= <-]. }
  assert (Hprobe : ∀ e0, probe ptr = inr e0 →
                         e0 = UnsupportedDestinationType).
  { intros e0. destruct ptr; simpl; try discriminate; by intros [= <-]. }
  assert (Hrec : ∀ a t arr e0, reconcile a t arr = Some e0 →
                               e0 = TypeMismatch).
  { intros a t arr e0. unfold reconcile.
    repeat match goal with
           | |- context [if ?b then _ else _] => destruct b
           end; try discriminate; by intros [= <-]. }
  assert (Hname : ∀ n neg e0, checkNameConflict oc n neg = Some e0 →
                              e0 = NameConflict).
  { intros n neg e0. unfold checkNameConflict.
    repeat match goal with
           | |- context [match ?x with _ => _ end] => destruct x
           end; try discriminate; by intros [= <-]. }
  assert (Hreg : ∀ a e0, snd (register oc a ptr) = Some e0 →
                         e0 = UnsupportedDestinationType).
  { intros a e0. unfold register.
    destruct ptr;
      repeat match goal with
             | |- context [if ?b then _ else _] => destruct b
             end; simpl; try discriminate; by intros [= <-]. }
  unfold parseOption.
  destruct (FindStringSubmatch desc) as [m|]; [|intros [= _ <-]; auto].
  destruct (readAttributes m) as [a|e0] eqn:Ha;
    [|intros [= _ <-]; rewrite (Hread _ _ Ha); auto].
  destruct (probe ptr) as [[pType pArray]|e0] eqn:Hp;
    [|intros [= _ <-]; rewrite (Hprobe _ eq_refl); auto].
  destruct (reconcile a pType pArray) as [e0|] eqn:Hr;
    [intros [= _ <-]; rewrite (Hrec _ _ _ _ Hr); auto|].
  destruct (checkNameConflict oc (name a) (negatable a)) as [e0|] eqn:Hn;
    [intros [= _ <-]; rewrite (Hname _ _ _ Hn); auto|].
  intros Hcall. rewrite (Hreg a e); [auto|].
  rewrite ?Hp. by rewrite Hcall.
Qed.

Lemma parseOptions_errors a oc oc1 e :
  parseOptions oc a = (oc1, Some e) →
  e = MalformedDescriptor ∨ e = UnsupportedDestinationType
  ∨ e = TypeMismatch ∨ e = NameConflict
  ∨ e = NotAString ∨ e = OddArguments.
Proof.
  revert oc. induction a as [|a0|a0 a1 a IH] using pairs_ind;
    intros oc; simpl.
  - discriminate.
  - intros [= _ <-]. auto 10.
  - destruct a0; try (intros [= _ <-]; auto 10).
    destruct (parseOption oc s a1) as [oc2 [e0|]] eqn:Hp; [|by apply IH].
    intros [= _ <-].
    destruct (parseOption_errors _ _ _ _ _ Hp) as [->|[->|[->| ->]]]; auto 10.
Qed.

Lemma scanTurn_Return_cases hs rest e :
  scanTurn hs rest = Return e →
  (∃ n, e = UnrecognizedOption n) ∨ e = MissingArgument
  ∨ isConversionError e.
Proof.
  assert (Hinv : ∀ h a r, invoke h a r = Return e → isConversionError e).
  { intros h a r. unfold invoke.
    destruct (handle h a) as [c|e0|m] eqn:Hh; try discriminate.
    intros [= <-]. by eapply handle_Err. }
  unfold scanTurn. intros Hturn.
  destruct rest as [|tok rest0]; [discriminate|].
  destruct (negb (HasPrefix tok "--")); [discriminate|].
  destruct (len (from 2 tok) =? 0); [discriminate|].
  destruct (if -1 <? IndexRune (from 2 tok) "="
            then ([from (Z.to_nat (IndexRune (from 2 tok) "=" + 1))
                     (from 2 tok)],
                  upto (Z.to_nat (IndexRune (from 2 tok) "=")) (from 2 tok))
            else ([], from 2 tok)) as [zeroOrOne nm].
  destruct (hs !! nm) as [h|] eqn:Hh;
    [|inversion Hturn; left; by eexists].
  repeat match type of Hturn with
         | (if ?b then _ else _) = _ => destruct b
         | match ?l with _ => _ end = _ => destruct l
         end;
    try (right; right; by eapply Hinv);
    inversion Hturn; right; by left.
Qed.

(** X21. The errors of [GetOptions].  When the descriptors and
    destinations do not register, the error is the one of the
    registration, one of "descriptor not understood", "type not
    recognized", "descriptor type mismatch", "option already exists",
    "descriptor must be string" and "odd number of arguments", and the
    arguments are not looked at.  When they register, an error is
    "Arg <name> not recognized", "missing required argument", or the
    error of a conversion by [strconv]; a flag, a counting option and a
    string option never fail on their value. *)
Theorem X21_errors_of_GetOptions args a st rest e st' :
  GetOptions args a st = (Returns rest (Some e), st') →
  match snd (parseOptions newOptionCollection a) with
  | Some e' =>
      e = e'
      ∧ (e = MalformedDescriptor ∨ e = UnsupportedDestinationType
         ∨ e = TypeMismatch ∨ e = NameConflict
         ∨ e = NotAString ∨ e = OddArguments)
  | None =>
      (∃ n, e = UnrecognizedOption n) ∨ e = MissingArgument
      ∨ isConversionError e
  end.
Proof.
  unfold GetOptions, processArgs.
  destruct (parseOptions newOptionCollection a) as [oc [e0|]] eqn:Hreg;
    simpl.
  - intros [= _ <- _]. split; [done|]. by eapply parseOptions_errors.
  - destruct (scan_ends (handlers oc) args (committers oc))
      as (new & rest1 & _ & Hend).
    destruct (scan (handlers oc) args (committers oc)) as [r cs|e1 cs|m cs];
      try discriminate.
    intros [= _ <- _]. destruct Hend as [Hturn _].
    by eapply scanTurn_Return_cases.
Qed.

(** ** A second call *)

(** X22. Scanning the remainder again: the remainder of a successful
    call of [GetOptions] holds nothing more to process, the same
    descriptors and destinations leave it and the storage as they are,
    unless the scan was ended by the marker ["--"]; then the tokens
    after the marker are the remainder, options among them included,
    and a second call would process them. *)
Theorem X22_remainder_scanned_again args a st rest st' :
  GetOptions args a st = (Returns rest None, st') →
  GetOptions rest a st' = (Returns rest None, st')
  ∨ ∃ used, args = used ++ "--" :: rest.
Proof.
  unfold GetOptions.
  destruct (parseOptions newOptionCollection a) as [oc [e|]] eqn:Hreg;
    [discriminate|].
  unfold processArgs.
  rewrite (parseOptions_committers _ _ _ _ Hreg). simpl committers.
  destruct (scan_ends (handlers oc) args []) as (new & rest1 & Hadv & Hend).
  destruct (scan (handlers oc) args []) as [r cs|e cs|m cs]; try discriminate.
  intros [= <- <-]. destruct Hend as [Hturn _].
  destruct (advances_drops _ _ _ _ Hadv) as [used ->].
  destruct (scanTurn_Break_cases _ _ _ Hturn) as [[-> Hfirst]| ->].
  - left. rewrite scan_turn, Hturn. reflexivity.
  - right. by exists used.
Qed.

End GetOpt.

(** * Instances of the statements

    The statements above, at concrete inputs, with [Binary64] for the
    parameters. *)

Lemma C1_failed_scan_is_atomic_witness :
  let st := zeroStore Binary64.float64 Binary64.zero in
  let oc := newOptionCollection Binary64.float64 in
  processArgs _ Binary64.ParseFloat oc ["--x"] st
  = (Returns ["--x"] (Some (UnrecognizedOption "x")), oc, st)
  ∧ ["--x"] = ["--x"] ∧ st = st.
Proof.
  intros st oc.
  assert (Hrun : processArgs _ Binary64.ParseFloat oc ["--x"] st
                 = (Returns ["--x"] (Some (UnrecognizedOption "x")), oc, st))
    by reflexivity.
  split; [exact Hrun|].
  exact (proj1 (C1_failed_scan_is_atomic _ _ _ _ _ _ _ _ Hrun) _ _ eq_refl).
Defined.

Lemma C7_end_of_options_marker_witness :
  let hs : gmap string (optionHandler) :=
    {[ "flag" := optionSimpleHandler optionNoArg true 0%nat ]} in
  let oc := OptionCollection Binary64.float64 hs [] in
  let c := optionSimpleCommitter_bool Binary64.float64 true 0%nat in
  let st := zeroStore Binary64.float64 Binary64.zero in
  advances _ Binary64.ParseFloat hs ["--flag"; "--"; "x"] [c] ["--"; "x"]
  ∧ processArgs _ Binary64.ParseFloat oc ["--flag"; "--"; "x"] st
    = (Returns ["x"] None, OptionCollection _ hs [c],
       commitAll _ (OptionCollection _ hs [c]) st).
Proof.
  intros hs oc c st.
  assert (Hadv : advances _ Binary64.ParseFloat (handlers _ oc)
                   ["--flag"; "--"; "x"] [c] ["--"; "x"]).
  { eapply advances_turn; [reflexivity | apply advances_here]. }
  split; [exact Hadv|].
  exact (proj1 (C7_end_of_options_marker _ _ oc _ _ _ st Hadv)).
Defined.

Lemma C5_optional_argument_absent_witness :
  let h := optionFloatHandler optionOptionalArg 0%nat in
  let hs : gmap string optionHandler := {[ "value" := h ]} in
  let zero := λ st : store Binary64.float64,
                float64s _ st 0%nat = Binary64.zero in
  optionalZero _ Binary64.zero h zero
  ∧ hs !! "value" = Some h
  ∧ HasPrefix "--flag" "--" = true
  ∧ ∃ c, scanTurn _ Binary64.ParseFloat hs ["--value"; "--flag"]
         = Continue _ ["--flag"] c
         ∧ ∀ st, zero (commit _ c st).
Proof.
  intros h hs zero.
  assert (H1 : optionalZero _ Binary64.zero h zero) by constructor.
  assert (H2 : hs !! "value" = Some h) by reflexivity.
  assert (H3 : HasPrefix "--flag" "--" = true) by reflexivity.
  split; [exact H1|]. split; [exact H2|]. split; [exact H3|].
  refine (proj1 (C5_optional_argument_absent _ Binary64.zero
                   Binary64.ParseFloat eq_refl hs "value" h zero ["--flag"]
                   H1 H2 _ eq_refl H3)).
  discriminate.
Defined.

Lemma C8_inline_and_separate_agree_witness :
  let h := optionStringHandler optionRequiredArg 0%nat in
  let oc := OptionCollection Binary64.float64 {[ "name" := h ]} [] in
  let st := zeroStore Binary64.float64 Binary64.zero in
  let oc' := OptionCollection Binary64.float64 {[ "name" := h ]}
               [optionSimpleCommitter_string _ "v" 0%nat] in
  requiredScalar h
  ∧ handlers _ oc !! "name" = Some h
  ∧ processArgs _ Binary64.ParseFloat oc ["--name=v"] st
    = (Returns [] None, oc', commitAll _ oc' st)
  ∧ processArgs _ Binary64.ParseFloat oc ["--name"; "v"] st
    = (Returns [] None, oc', commitAll _ oc' st)
  ∧ strings _ (commitAll _ oc' st) 0%nat = "v".
Proof.
  intros h oc st oc'.
  assert (H1 : requiredScalar h) by constructor.
  assert (H2 : handlers _ oc !! "name" = Some h) by reflexivity.
  assert (H3 : "name" ≠ "") by discriminate.
  split; [exact H1|]. split; [exact H2|].
  pose proof (C8_inline_and_separate_agree _ Binary64.ParseFloat
                oc "name" h "v" st H1 H2 H3 eq_refl) as H.
  destruct H as (Ha & Hb & Hc).
  split; [exact Ha|]. split; [exact Hb|]. exact (Hc 0%nat eq_refl).
Defined.

Lemma C9_empty_inline_value_witness :
  let h := optionFloatHandler optionRequiredArg 0%nat in
  let oc := OptionCollection Binary64.float64 {[ "name" := h ]} [] in
  let st := zeroStore Binary64.float64 Binary64.zero in
  Binary64.ParseFloat "" = inr (NumError "ParseFloat" "" ErrSyntax)
  ∧ handlers _ oc !! "name" = Some h
  ∧ ∃ e, processArgs _ Binary64.ParseFloat oc ["--name="] st
         = (Returns ["--name="] (Some e), oc, st)
         ∧ isConversionError e ∧ e ≠ MissingArgument.
Proof.
  intros h oc st.
  assert (H0 : Binary64.ParseFloat ""
               = inr (NumError "ParseFloat" "" ErrSyntax)) by reflexivity.
  assert (H1 : ∀ s e, Binary64.ParseFloat s = inr e
                      → ∃ k, e = NumError "ParseFloat" s k).
  { intros s e. unfold Binary64.ParseFloat.
    repeat match goal with
           | |- context [match ?x with _ => _ end] => destruct x
           end; intros H; inversion H; eauto. }
  assert (H2 : handlers _ oc !! "name" = Some h) by reflexivity.
  assert (H3 : "name" ≠ "") by discriminate.
  split; [exact H0|]. split; [exact H2|].
  exact (proj1 (proj2 (C9_empty_inline_value _ Binary64.ParseFloat H0 H1
                  oc "name" 0%nat st H3 eq_refl)) (or_intror H2)).
Defined.

Lemma C10_odd_argument_list_witness :
  let st := zeroStore Binary64.float64 Binary64.zero in
  parseOptions Binary64.float64 (newOptionCollection _)
    [AString "x"; PBool 0%nat]
  = (addSimpleHandler _ (newOptionCollection _) "x" 0%nat, None)
  ∧ GetOptions _ Binary64.ParseFloat ["-x"; "notaflag"]
      ([AString "x"; PBool 0%nat] ++ [AString "y"]) st
    = (Returns ["-x"; "notaflag"] (Some OddArguments), st).
Proof.
  intros st.
  assert (H : parseOptions Binary64.float64 (newOptionCollection _)
                [AString "x"; PBool 0%nat]
              = (addSimpleHandler _ (newOptionCollection _) "x" 0%nat, None))
    by reflexivity.
  split; [exact H|].
  exact (C10_odd_argument_list _ Binary64.ParseFloat ["-x"; "notaflag"]
           _ (AString "y") st _ H).
Defined.

(** C2, as stated, fails: ["flag=b!"] is matched by the expression and
    registers with a boolean destination; ["v:i+"] is matched and
    carries both the counting and the optional attribute. *)
Lemma C2_counterexample :
  FindStringSubmatch "flag=b!" = Some (Submatch "flag" "=b" "!")
  ∧ parseOption Binary64.float64 (newOptionCollection _) "flag=b!"
      (PBool 0%nat)
    = (addNegatableHandler _ (newOptionCollection _) "flag" 0%nat, None)
  ∧ (FindStringSubmatch "v:i+" = Some (Submatch "v" ":i" "+")
     ∧ readAttributes (Submatch "v" ":i" "+")
       = inl (Attributes false true true false "i" "v"))
  ∧ parseOption Binary64.float64 (newOptionCollection _) "v:i+"
      (PInt 0%nat)
    = (addCountingHandler _ (newOptionCollection _) "v" 0%nat, None).
Proof. repeat split. Qed.

Lemma C2_type_marker_with_modifier_witness :
  let oc := newOptionCollection Binary64.float64 in
  nameText "flag"
  ∧ ∃ a, FindStringSubmatch "flag=b!" = Some (Submatch "flag" "=b" "!")
         ∧ readAttributes (Submatch "flag" "=b" "!") = inl a
         ∧ name a = "flag" ∧ dType a = "b"%char
         ∧ optional a = false ∧ negatable a = true
         ∧ counting a = false ∧ dArray a = false
         ∧ snd (parseOption _ oc "flag=b!" (PBool 0%nat))
           ≠ Some MalformedDescriptor.
Proof.
  intros oc.
  assert (Hn : nameText "flag") by (split; [discriminate | reflexivity]).
  split; [exact Hn|].
  exact (proj1 (C2_type_marker_with_modifier _ "flag" "=" "b" "!" oc
                  (PBool 0%nat) Hn eq_refl eq_refl eq_refl)).
Defined.

Lemma C3_type_reconciliation_witness :
  let oc := newOptionCollection Binary64.float64 in
  let a := Attributes false false false false "b" "flag" in
  FindStringSubmatch "flag=b" = Some (Submatch "flag" "=b" "")
  ∧ readAttributes (Submatch "flag" "=b" "") = inl a
  ∧ (snd (parseOption _ oc "flag=b" (PInt 0%nat)) = Some TypeMismatch
     ↔ violated a (Shape Integer false) = true)
  ∧ (violated a (Shape Integer false) = true
     → parseOption _ oc "flag=b" (PInt 0%nat) = (oc, Some TypeMismatch)).
Proof.
  intros oc a.
  assert (H1 : FindStringSubmatch "flag=b" = Some (Submatch "flag" "=b" ""))
    by reflexivity.
  assert (H2 : readAttributes (Submatch "flag" "=b" "") = inl a)
    by reflexivity.
  split; [exact H1|]. split; [exact H2|].
  exact (C3_type_reconciliation _ "flag=b" _ a (PInt 0%nat) oc H1 H2).
Defined.

Lemma C4_name_conflict_witness :
  let oc := newOptionCollection Binary64.float64 in
  let oc1 := addNegatableHandler _ oc "flag" 0%nat in
  let oc2 := addIntHandler _ oc1 "value" 1%nat in
  let a := Attributes true false false false "?" "flag" in
  let a' := Attributes false false false false "s" "noflag" in
  validPair "flag!" (PBool 0%nat) a
  ∧ validPair "noflag=s" (PString 2%nat) a'
  ∧ parseOption _ oc "flag!" (PBool 0%nat) = (oc1, None)
  ∧ registeredLater _ oc1 oc2
  ∧ parseOption _ oc2 "noflag=s" (PString 2%nat) = (oc2, Some NameConflict).
Proof.
  intros oc oc1 oc2 a a'.
  assert (H1 : validPair "flag!" (PBool 0%nat) a).
  { exists (Submatch "flag" "" "!"), "b"%char, false. by repeat split. }
  assert (H2 : validPair "noflag=s" (PString 2%nat) a').
  { exists (Submatch "noflag" "=s" ""), "s"%char, false. by repeat split. }
  assert (H3 : parseOption _ oc "flag!" (PBool 0%nat) = (oc1, None))
    by reflexivity.
  assert (H4 : registeredLater _ oc1 oc2).
  { eapply (registeredLater_call _ oc1 "value" (PInt 1%nat));
      [reflexivity | apply registeredLater_now]. }
  split; [exact H1|]. split; [exact H2|]. split; [exact H3|].
  split; [exact H4|].
  exact (proj1 (C4_name_conflict _ oc oc1 oc2 _ _ a _ _ a' H1 H2 H3 H4
                  (or_intror (or_introl (conj eq_refl eq_refl))))).
Defined.

Lemma C6_commit_in_scan_order_witness :
  let h := optionIntArrayHandler optionRequiredArg 0%nat in
  let hs : gmap string optionHandler := {[ "value" := h ]} in
  let oc := OptionCollection Binary64.float64 hs [] in
  let cs := [optionArrayCommitter_int Binary64.float64 5 0%nat;
             optionArrayCommitter_int Binary64.float64 3 0%nat] in
  let oc' := OptionCollection Binary64.float64 hs cs in
  let st := zeroStore Binary64.float64 Binary64.zero in
  let args := ["--value"; "5"; "--value=3"; "not a flag"] in
  processArgs _ Binary64.ParseFloat oc args st
  = (Returns ["not a flag"] None, oc', commitAll _ oc' st)
  ∧ intSlices _ (commitAll _ oc' st) 0%nat
    = intSlices _ st 0%nat ++ intsAppended _ 0%nat cs.
Proof.
  intros h hs oc cs oc' st args.
  assert (Hrun : processArgs _ Binary64.ParseFloat oc args st
                 = (Returns ["not a flag"] None, oc', commitAll _ oc' st))
    by reflexivity.
  split; [exact Hrun|].
  exact (proj1 (proj1 (proj2 (C6_commit_in_scan_order _ Binary64.ParseFloat
                  oc args st _ oc' _ Hrun)) 0%nat)).
Defined.

(** C7, as stated for every token list, fails: a ["--"] that follows a
    required-argument option is taken as the value of the option; the
    scan goes on, and the token after it is consumed as well. *)
Lemma C7_counterexample :
  let st := zeroStore Binary64.float64 Binary64.zero in
  ∃ st',
    GetOptions _ Binary64.ParseFloat ["--name"; "--"; "--flag"; "y"]
      [AString "name=s"; PString 0%nat; AString "flag"; PBool 0%nat] st
    = (Returns ["y"] None, st')
    ∧ strings _ st' 0%nat = "--"
    ∧ bools _ st' 0%nat = true.
Proof. eexists. repeat split. Qed.

(** C8, as stated for every value token, fails: when the value does not
    convert, each form returns its own token list, and the two differ. *)
Lemma C8_counterexample :
  let st := zeroStore Binary64.float64 Binary64.zero in
  let e := NumError "Atoi" "abc" ErrSyntax in
  GetOptions _ Binary64.ParseFloat ["--opt=abc"]
    [AString "opt=i"; PInt 0%nat] st
  = (Returns ["--opt=abc"] (Some e), st)
  ∧ GetOptions _ Binary64.ParseFloat ["--opt"; "abc"]
      [AString "opt=i"; PInt 0%nat] st
    = (Returns ["--opt"; "abc"] (Some e), st)
  ∧ ["--opt=abc"] ≠ ["--opt"; "abc"].
Proof. repeat split. discriminate. Qed.

Lemma X3_descriptors_rejected_witness :
  let oc := newOptionCollection Binary64.float64 in
  (∃ c, lastByte "value:" = Some c ∧ markerByte c = true)
  ∧ parseOption _ oc "value:" (PInt 0%nat) = (oc, Some MalformedDescriptor).
Proof.
  intros oc.
  assert (H : ∃ c, lastByte "value:" = Some c ∧ markerByte c = true)
    by (exists ":"%char; by split).
  split; [exact H|].
  exact (X3_descriptors_rejected _ oc "value:" (PInt 0%nat)
           (or_intror (or_intror H))).
Defined.

Lemma X4_registration_stops_at_first_failure_witness :
  let oc := newOptionCollection Binary64.float64 in
  let oc1 := addSimpleHandler _ oc "x" 0%nat in
  parseOptions _ oc [AString "x"; PBool 0%nat] = (oc1, None)
  ∧ parseOptions _ oc
      ([AString "x"; PBool 0%nat]
       ++ AString "x" :: PInt 1%nat :: [AString "y"; PInt 2%nat])
    = (oc1, Some NameConflict).
Proof.
  intros oc oc1.
  assert (H : parseOptions _ oc [AString "x"; PBool 0%nat] = (oc1, None))
    by reflexivity.
  split; [exact H|].
  exact (proj1 (proj2 (X4_registration_stops_at_first_failure _ oc _ oc1
                  (AString "x") (PInt 1%nat) [AString "y"; PInt 2%nat] H))
           "x" NameConflict eq_refl eq_refl).
Defined.

Lemma X6_registered_handler_witness :
  let oc := newOptionCollection Binary64.float64 in
  let a := Attributes false true true false "i" "v" in
  let oc1 := addCountingHandler _ oc "v" 0%nat in
  validPair "v:i+" (PInt 0%nat) a
  ∧ parseOption _ oc "v:i+" (PInt 0%nat) = (oc1, None)
  ∧ ∃ h, handlers _ oc1 !! "v" = Some h
         ∧ getType h = optionNoArg
         ∧ Some (writes h) = Some (IntAt 0%nat).
Proof.
  intros oc a oc1.
  assert (H1 : validPair "v:i+" (PInt 0%nat) a).
  { exists (Submatch "v" ":i" "+"), "i"%char, false. by repeat split. }
  assert (H2 : parseOption _ oc "v:i+" (PInt 0%nat) = (oc1, None))
    by reflexivity.
  split; [exact H1|]. split; [exact H2|].
  exact (X6_registered_handler _ oc "v:i+" (PInt 0%nat) a oc1 H1 H2).
Defined.

Lemma X7_negated_name_witness :
  let oc := newOptionCollection Binary64.float64 in
  let a := Attributes true false false false "?" "flag" in
  let oc1 := addNegatableHandler _ oc "flag" 0%nat in
  validPair "flag!" (PBool 0%nat) a
  ∧ parseOption _ oc "flag!" (PBool 0%nat) = (oc1, None)
  ∧ handlers _ oc1 !! "flag"
    = Some (optionSimpleHandler optionNoArg true 0%nat)
  ∧ handlers _ oc1 !! "noflag"
    = Some (optionSimpleHandler optionNoArg false 0%nat).
Proof.
  intros oc a oc1.
  assert (H1 : validPair "flag!" (PBool 0%nat) a).
  { exists (Submatch "flag" "" "!"), "b"%char, false. by repeat split. }
  assert (H2 : parseOption _ oc "flag!" (PBool 0%nat) = (oc1, None))
    by reflexivity.
  split; [exact H1|]. split; [exact H2|].
  exact (X7_negated_name _ oc "flag!" 0%nat a oc1 H1 H2).
Defined.

Lemma X8_registration_frame_witness :
  let oc := addIntHandler Binary64.float64 (newOptionCollection _)
              "value" 1%nat in
  let oc1 := addNegatableHandler _ oc "flag" 0%nat in
  parseOption _ oc "flag!" (PBool 0%nat) = (oc1, None)
  ∧ committers _ oc1 = committers _ oc
  ∧ handlers _ oc1 !! "value" = handlers _ oc !! "value".
Proof.
  intros oc oc1.
  assert (H : parseOption _ oc "flag!" (PBool 0%nat) = (oc1, None))
    by reflexivity.
  split; [exact H|].
  pose proof (X8_registration_frame _ oc "flag!" (PBool 0%nat) oc1 None H)
    as (Hc & _ & Hk).
  split; [exact Hc|].
  refine (Hk (Submatch "flag" "" "!")
             (Attributes true false false false "?" "flag") "value"
             eq_refl eq_refl _ _); [discriminate | intros _; discriminate].
Defined.

Lemma X9_registered_names_witness :
  let oc := addNegatableHandler Binary64.float64 (newOptionCollection _)
              "flag" 0%nat in
  parseOptions _ (newOptionCollection _) [AString "flag!"; PBool 0%nat]
  = (oc, None)
  ∧ is_Some (handlers _ oc !! "noflag")
  ∧ nameText "noflag" ∧ IndexRune "noflag" "=" = -1.
Proof.
  intros oc.
  assert (H : parseOptions _ (newOptionCollection _)
                [AString "flag!"; PBool 0%nat] = (oc, None)) by reflexivity.
  assert (Hk : is_Some (handlers _ oc !! "noflag")) by (eexists; reflexivity).
  split; [exact H|]. split; [exact Hk|].
  exact (X9_registered_names _ _ oc None H "noflag" Hk).
Defined.

Lemma X11_remainder_is_a_tail_witness :
  let hs : gmap string optionHandler :=
    {[ "flag" := optionSimpleHandler optionNoArg true 0%nat ]} in
  let oc := OptionCollection Binary64.float64 hs [] in
  let oc' := OptionCollection Binary64.float64 hs
               [optionSimpleCommitter_bool _ true 0%nat] in
  let st := zeroStore Binary64.float64 Binary64.zero in
  processArgs _ Binary64.ParseFloat oc ["--flag"; "file"] st
  = (Returns ["file"] None, oc', commitAll _ oc' st)
  ∧ ((∃ used, ["--flag"; "file"] = used ++ ["file"]
              ∧ HasPrefix "file" "--" = false)
     ∨ (∃ used, ["--flag"; "file"] = used ++ ["--"; "file"])).
Proof.
  intros hs oc oc' st.
  assert (H : processArgs _ Binary64.ParseFloat oc ["--flag"; "file"] st
              = (Returns ["file"] None, oc', commitAll _ oc' st))
    by reflexivity.
  split; [exact H|].
  exact (X11_remainder_is_a_tail _ Binary64.ParseFloat oc _ st _ oc' _ H).
Defined.

Lemma X12_no_leading_option_witness :
  let st := zeroStore Binary64.float64 Binary64.zero in
  HasPrefix "-x" "--" = false
  ∧ parseOptions Binary64.float64 (newOptionCollection _) [AString "x"; PBool 0%nat]
    = (addSimpleHandler _ (newOptionCollection _) "x" 0%nat, None)
  ∧ GetOptions _ Binary64.ParseFloat ["-x"; "notaflag"]
      [AString "x"; PBool 0%nat] st
    = (Returns ["-x"; "notaflag"] None, st).
Proof.
  intros st.
  assert (H1 : HasPrefix "-x" "--" = false) by reflexivity.
  assert (H2 : parseOptions Binary64.float64 (newOptionCollection _)
                 [AString "x"; PBool 0%nat]
               = (addSimpleHandler _ (newOptionCollection _) "x" 0%nat, None))
    by reflexivity.
  split; [exact H1|]. split; [exact H2|].
  exact (X12_no_leading_option _ Binary64.ParseFloat ["-x"; "notaflag"]
           _ st _ H1 H2).
Defined.

Lemma X15_inline_value_ignored_witness :
  let h := optionSimpleHandler optionNoArg true 0%nat in
  let hs : gmap string optionHandler := {[ "flag" := h ]} in
  hs !! "flag" = Some h
  ∧ ∃ c, handle _ Binary64.ParseFloat h [] = Ok _ c
         ∧ scanTurn _ Binary64.ParseFloat hs ["--flag=false"; "x"]
           = Continue _ ["x"] c
         ∧ scanTurn _ Binary64.ParseFloat hs ["--flag"; "x"]
           = Continue _ ["x"] c.
Proof.
  intros h hs.
  assert (H1 : hs !! "flag" = Some h) by reflexivity.
  assert (H2 : "flag" ≠ "") by discriminate.
  split; [exact H1|].
  exact (X15_inline_value_ignored _ Binary64.ParseFloat hs "flag" h "false"
           ["x"] H1 (or_introl (ex_intro _ true (ex_intro _ 0%nat eq_refl)))
           H2 eq_refl).
Defined.

Lemma X16_optional_argument_taken_witness :
  let h := optionIntHandler optionOptionalArg 0%nat in
  let oc := OptionCollection Binary64.float64 {[ "value" := h ]} [] in
  let st := zeroStore Binary64.float64 Binary64.zero in
  let e := NumError "Atoi" "file.txt" ErrSyntax in
  handlers _ oc !! "value" = Some h
  ∧ HasPrefix "file.txt" "--" = false
  ∧ handle _ Binary64.ParseFloat h ["file.txt"] = Err _ e
  ∧ processArgs _ Binary64.ParseFloat oc ["--value"; "file.txt"] st
    = (Returns ["--value"; "file.txt"] (Some e), oc, st).
Proof.
  intros h oc st e.
  assert (H1 : handlers _ oc !! "value" = Some h) by reflexivity.
  assert (H2 : "value" ≠ "") by discriminate.
  assert (H3 : HasPrefix "file.txt" "--" = false) by reflexivity.
  assert (H4 : handle _ Binary64.ParseFloat h ["file.txt"] = Err _ e)
    by reflexivity.
  split; [exact H1|]. split; [exact H3|]. split; [exact H4|].
  exact (proj2 (X16_optional_argument_taken _ Binary64.ParseFloat oc "value"
                  h "file.txt" [] st H1 eq_refl H2 eq_refl H3) e H4).
Defined.

Lemma X17_unrecognized_option_witness :
  let oc := newOptionCollection Binary64.float64 in
  let st := zeroStore Binary64.float64 Binary64.zero in
  handlers _ oc !! "" = None
  ∧ processArgs _ Binary64.ParseFloat oc ["--=x"; "y"] st
    = (Returns ["--=x"; "y"] (Some (errors_New "Arg  not recognized")),
       oc, st).
Proof.
  intros oc st.
  assert (H1 : handlers _ oc !! "" = None) by reflexivity.
  split; [exact H1|].
  exact (proj1 (X17_unrecognized_option _ Binary64.ParseFloat oc "" "x"
                  ["y"] st H1 eq_refl)).
Defined.



Lemma X19_GetOSOptions_without_arguments_witness :
  let st := zeroStore Binary64.float64 Binary64.zero in
  let a := [AString "verbose"; PBool 0%nat] in
  parseOptions Binary64.float64 (newOptionCollection _) a
  = (addSimpleHandler _ (newOptionCollection _) "verbose" 0%nat, None)
  ∧ GetOSOptions _ Binary64.ParseFloat ["prog"] a st
    = (Panic _ "index out of range [1] with length 1", ["prog"], st).
Proof.
  intros st a.
  assert (H : parseOptions Binary64.float64 (newOptionCollection _) a
              = (addSimpleHandler _ (newOptionCollection _) "verbose" 0%nat,
                 None)) by reflexivity.
  split; [exact H|].
  exact (X19_GetOSOptions_without_arguments _ Binary64.ParseFloat
           "prog" a _ st H).
Defined.

Lemma X20_required_argument_taken_witness :
  let hs : gmap string optionHandler :=
    {[ "name" := optionStringHandler optionRequiredArg 0%nat ]} in
  let h := optionStringHandler optionRequiredArg 0%nat in
  hs !! "name" = Some h
  ∧ getType h = optionRequiredArg
  ∧ IndexRune "name" "=" = -1
  ∧ scanTurn Binary64.float64 Binary64.ParseFloat hs
      ["--name"; "--flag"; "x"]
    = Continue _ ["x"] (optionSimpleCommitter_string _ "--flag" 0%nat).
Proof.
  intros hs h.
  assert (H1 : hs !! "name" = Some h) by reflexivity.
  assert (H2 : getType h = optionRequiredArg) by reflexivity.
  assert (H3 : "name" ≠ "") by discriminate.
  assert (H4 : IndexRune "name" "=" = -1) by reflexivity.
  split; [exact H1|]. split; [exact H2|]. split; [exact H4|].
  exact (proj1 (X20_required_argument_taken Binary64.float64
                  Binary64.ParseFloat hs "name" h "--flag" ["x"]
                  H1 H2 H3 H4)).
Defined.

Lemma Binary64_ParseFloat_error s e :
  Binary64.ParseFloat s = inr e → ∃ k, e = NumError "ParseFloat" s k.
Proof.
  unfold Binary64.ParseFloat.
  set (sel := match s with
      | String "+" r => (false, r)
      | String "-" r => (true, r)
      | _ => (false, s)
      end).
  destruct sel as [neg body].
  destruct body as [|c body']; [intros H; inversion H; eauto|].
  set (dot := match c with "."%char => true | _ => false end).
  assert (Hfail : ∀ r : Binary64.float64 + error,
            (r = inr (NumError "ParseFloat" s ErrSyntax)
             ∨ ∃ f, r = inl f) →
            r = inr e → ∃ k, e = NumError "ParseFloat" s k).
  { intros r [->|[f ->]]; [intros [= <-]; eauto | discriminate]. }
  apply Hfail.
  destruct c as [[] [] [] [] [] [] [] []]; try (by left);
    (destruct (Binary64.mantissa _ false 0 0) as [[m k]|]; [|by left]);
    (destruct ((m <? 2 ^ 53) && (k <=? 22)); [right; eauto | by left]).
Qed.

Lemma X21_errors_of_GetOptions_witness :
  let st := zeroStore Binary64.float64 Binary64.zero in
  let a := [AString "n=i"; PInt 0%nat] in
  let e := NumError "Atoi" "x1" ErrSyntax in
  GetOptions _ Binary64.ParseFloat ["--n"; "x1"] a st
  = (Returns ["--n"; "x1"] (Some e), st)
  ∧ snd (parseOptions Binary64.float64 (newOptionCollection _) a) = None
  ∧ ((∃ n, e = UnrecognizedOption n) ∨ e = MissingArgument
     ∨ isConversionError e).
Proof.
  intros st a e.
  assert (H : GetOptions _ Binary64.ParseFloat ["--n"; "x1"] a st
              = (Returns ["--n"; "x1"] (Some e), st)) by reflexivity.
  split; [exact H|]. split; [reflexivity|].
  exact (X21_errors_of_GetOptions _ Binary64.ParseFloat
           Binary64_ParseFloat_error
           _ _ _ _ _ _ H).
Defined.

Lemma X22_remainder_scanned_again_witness :
  let st := zeroStore Binary64.float64 Binary64.zero in
  let a := [AString "flag"; PBool 0%nat] in
  let st' := commit _ (optionSimpleCommitter_bool _ true 0%nat) st in
  GetOptions _ Binary64.ParseFloat ["--flag"; "file"; "--flag"] a st
  = (Returns ["file"; "--flag"] None, st')
  ∧ (GetOptions _ Binary64.ParseFloat ["file"; "--flag"] a st'
     = (Returns ["file"; "--flag"] None, st')
     ∨ ∃ used, ["--flag"; "file"; "--flag"]
               = used ++ "--" :: ["file"; "--flag"]).
Proof.
  intros st a st'.
  assert (H : GetOptions _ Binary64.ParseFloat ["--flag"; "file"; "--flag"]
                a st
              = (Returns ["file"; "--flag"] None, st')) by reflexivity.
  split; [exact H|].
  exact (X22_remainder_scanned_again _ Binary64.ParseFloat _ a st _ st' H).
Defined.
